(** * Bill splitting: the split calculator of the client and the ledger
      contracts of the service, with the properties claimed about them.

    The client helper [calculateSplit] (frontend/src/services/api.js) is
    embedded over IEEE-754 binary64 numbers, the only number type a
    JavaScript program has.  The balance engine, the settlement ledger
    and the reminder selector live in the Flask service, whose sources
    are not part of the tree; they are modelled from the specification.
    Definitions come first, the properties follow. *)

From Stdlib Require Import ZArith Bool SpecFloat Ascii.
From stdpp Require Import strings gmap list sorting.

Local Open Scope Z_scope.

(** ** JavaScript numbers *)

Module JSNumber.

(** A JavaScript Number is a binary64 float; [spec_float] carries no NaN
    payload, like the language, where every NaN is the same value. *)
Abbreviation number := spec_float.

Definition prec : Z := 53.
Definition emax : Z := 1024.

(** The Number denoted by an integer literal (rounded to nearest-even
    when it has more than 53 significant bits). *)
Definition of_Z (z : Z) : number := binary_normalize prec emax z 0 false.

Definition add : number → number → number := SFadd prec emax.
Definition mul : number → number → number := SFmul prec emax.
Definition div : number → number → number := SFdiv prec emax.
Definition sub : number → number → number := SFsub prec emax.
Definition abs : number → number := SFabs.

(** [x < y] and [x <= y]: false as soon as an operand is NaN. *)
Definition ltb (x y : number) : bool := SFltb x y.
Definition leb (x y : number) : bool := SFleb x y.

(** [x === y] on Numbers: NaN differs from itself, -0 equals +0. *)
Definition strict_eq (x y : number) : bool := SFeqb x y.

(** ToBoolean on Numbers: +0, -0 and NaN are falsy. *)
Definition truthy (x : number) : bool :=
  match x with
  | S754_zero _ | S754_nan => false
  | _ => true
  end.

(** Number.isFinite *)
Definition is_finite (x : number) : bool :=
  match x with
  | S754_zero _ | S754_finite _ _ _ => true
  | _ => false
  end.

Definition is_zero (x : number) : bool :=
  match x with
  | S754_zero _ => true
  | _ => false
  end.

(** [parseFloat] applied to a Number: the argument goes through ToString
    and is parsed back.  ToString prints the shortest digits that read
    back as the same double, "NaN", and "Infinity" with its sign, all of
    which [parseFloat] accepts; only the sign of zero is lost, since
    ToString(-0) is "0".  A string argument parses to some Number (NaN when
    no prefix is a decimal literal), so every value [parseFloat] returns is
    in the image of this function. *)
Definition parseFloat (x : number) : number :=
  match x with
  | S754_zero _ => S754_zero false
  | _ => x
  end.

(** The Number written as the decimal literal [c/100] (a currency amount
    of [c] minor units): both [c] and [100] are exact, and one correctly
    rounded division yields the double nearest to the decimal. *)
Definition of_cents (c : Z) : number := div (of_Z c) (of_Z 100).

End JSNumber.

Import JSNumber.

(** ** Completions: a call returns a value or throws *)

(** The error taxonomy of the system, with the one runtime error the client
    code can raise on the inputs modelled here. *)
Inductive error : Type :=
  | TypeError
  | ValidationError
  | NotFoundError
  | ConflictError
  | AuthError
  | DependencyError.

Inductive completion (A : Type) : Type :=
  | Return (a : A)
  | Throw (e : error).
Arguments Return {A} a.
Arguments Throw {A} e.

#[global] Instance completion_ret : MRet completion := fun A a => Return a.

#[global] Instance completion_bind : MBind completion := fun A B k c =>
  match c with
  | Return a => k a
  | Throw e => Throw e
  end.

(** [Array.prototype.reduce] with an initial value: the callback runs on
    the elements from left to right and a throw aborts the loop. *)
Fixpoint reduce {A B} (f : B → A → completion B) (l : list A) (acc : B)
  : completion B :=
  match l with
  | [] => Return acc
  | x :: l' => acc' ← f acc x; reduce f l' acc'
  end.

(** ** The split calculator (frontend/src/services/api.js) *)

(** Members are identified by the integer primary keys of the service; as
    a property key such an id is its decimal string, which is injective, so
    an object indexed by ids is a finite map over [N]. *)
Abbreviation member_id := N.

Record participant : Type := { id : member_id }.

(** The [data] argument: both properties are optional. *)
Record split_data : Type := {
  amounts : option (gmap N number);
  percentages : option (gmap N number)
}.

(** The default value [{}] of [data]. *)
Definition no_data : split_data := {| amounts := None; percentages := None |}.

(** [o[k] || 0] for a property holding a Number or missing. *)
Definition or_zero (v : option number) : number :=
  match v with
  | Some x => if truthy x then x else of_Z 0
  | None => of_Z 0
  end.

(** Reading [data.percentages[k]]: indexing [undefined] raises TypeError. *)
Definition get_percentage (data : split_data) (k : member_id)
  : completion (option number) :=
  match percentages data with
  | Some pcts => Return (pcts !! k)
  | None => Throw TypeError
  end.

(** [calculateSplit(amount, participants, method = 'equal', data = {})].
    An omitted (or [undefined]) argument is [None] and takes its default.
    The [switch] compares [method] with each label by [===] in order. *)
Definition calculateSplit (amount : number) (participants : list participant)
    (method : option string) (data : option split_data)
  : completion (gmap N number) :=
  let method := default "equal"%string method in
  let data := default no_data data in
  let totalAmount := parseFloat amount in
  if String.eqb method "equal" then
    let amountPerPerson :=
      div totalAmount (of_Z (Z.of_nat (length participants))) in
    reduce (fun acc participant =>
              Return (<[id participant := amountPerPerson]> acc))
           participants ∅
  else if String.eqb method "exact" then
    Return (default ∅ (amounts data))
  else if String.eqb method "percentage" then
    reduce (fun acc participant =>
              entry ← get_percentage data (id participant);
              let percentage := or_zero entry in
              Return (<[id participant :=
                          div (mul totalAmount percentage) (of_Z 100)]> acc))
           participants ∅
  else
    Return ∅.

(** The entries of an object indexed by member id (shares, amounts or
    percentages) added up over the participants in input order, starting
    from 0, as [participants.reduce((s, p) => s + o[p.id], 0)] does; a
    participant without an entry contributes [undefined], which makes the
    sum NaN. *)
Definition entry_of (o : gmap N number) (p : participant) : number :=
  match o !! id p with
  | Some x => x
  | None => S754_nan
  end.

Definition sum_entries (participants : list participant)
    (o : gmap N number) : number :=
  foldl (fun s p => add s (entry_of o p)) (of_Z 0) participants.

(** [x] and [y] are further apart than the tolerance. *)
Definition differ_by_more_than (tolerance x y : number) : bool :=
  ltb tolerance (abs (sub x y)).

(** ** What the specification asks of the split calculator *)

(** Written after the specification's words, on amounts in minor units, to
    be compared with what [calculateSplit] returns. *)

(** [n/d] rounded to the nearest integer, ties to the even one (banker's
    rounding), for [0 < d]. *)
Definition round_half_even (n d : Z) : Z :=
  let q := n / d in
  let r := n mod d in
  if 2 * r <? d then q
  else if d <? 2 * r then q + 1
  else if Z.even q then q else q + 1.

(** "any residual cent from rounding is assigned to the first participant" *)
Definition with_residual (total : Z) (rounded : list Z) : list Z :=
  match rounded with
  | [] => []
  | first :: rest => (first + (total - foldr Z.add 0 rounded)) :: rest
  end.

(** "share = totalAmount / count(participants), using banker's rounding to
    currency minor unit" *)
Definition spec_equal_cents (total : Z) (count : nat) : list Z :=
  with_residual total
    (replicate count (round_half_even total (Z.of_nat count))).

(** "computed share = round(totalAmount × percentage / 100)", percentages
    given in hundredths of a percent. *)
Definition spec_percentage_cents (total : Z) (hundredths : list Z) : list Z :=
  with_residual total
    ((fun h => round_half_even (total * h) 10000) <$> hundredths).

(** The shares returned are the specified ones, participant by participant. *)
Definition shares_are (participants : list participant) (cents : list Z)
    (shares : gmap N number) : Prop :=
  Forall2 (fun p c => shares !! id p = Some (of_cents c)) participants cents.

(** The shares returned add up to the total exactly. *)
Definition shares_sum_to (total : Z) (participants : list participant)
    (shares : gmap N number) : Prop :=
  sum_entries participants shares = of_cents total.

(** The [data] of a percentage split; [hundredths] lists the participants'
    percentages in input order. *)
Definition percentage_data (participants : list participant)
    (hundredths : list Z) : split_data :=
  {| amounts := None;
     percentages :=
       Some (list_to_map
               (zip (id <$> participants) (of_cents <$> hundredths))) |}.

(** The claim on [equal] splits at one input, and its part on the sum. *)
Definition equal_split_claim (total : Z) (participants : list participant)
  : Prop :=
  ∃ shares,
    calculateSplit (of_cents total) participants (Some "equal"%string) None
      = Return shares
    ∧ shares_sum_to total participants shares
    ∧ shares_are participants
        (spec_equal_cents total (length participants)) shares.

Definition equal_sum_claim (total : Z) (participants : list participant)
  : Prop :=
  ∃ shares,
    calculateSplit (of_cents total) participants (Some "equal"%string) None
      = Return shares
    ∧ shares_sum_to total participants shares.

(** The claim on [percentage] splits at one input, and its part on the
    sum. *)
Definition percentage_split_claim (total : Z) (participants : list participant)
    (hundredths : list Z) : Prop :=
  ∃ shares,
    calculateSplit (of_cents total) participants (Some "percentage"%string)
      (Some (percentage_data participants hundredths))
      = Return shares
    ∧ shares_sum_to total participants shares
    ∧ shares_are participants
        (spec_percentage_cents total hundredths) shares.

Definition percentage_sum_exact_claim (total : Z)
    (participants : list participant) (hundredths : list Z) : Prop :=
  ∃ shares,
    calculateSplit (of_cents total) participants (Some "percentage"%string)
      (Some (percentage_data participants hundredths))
      = Return shares
    ∧ shares_sum_to total participants shares.

(** The claim on [exact] splits at one input: amounts that miss the total
    by more than one minor unit are refused. *)
Definition exact_split_claim (amount : number) (participants : list participant)
    (supplied : gmap N number) : Prop :=
  differ_by_more_than (of_cents 1) (sum_entries participants supplied)
    (parseFloat amount) = true →
  calculateSplit amount participants (Some "exact"%string)
    (Some {| amounts := Some supplied; percentages := None |})
  = Throw ValidationError.

(** The claim on the percentages at one input: percentages that miss 100 by
    more than 0.01 are refused. *)
Definition percentage_sum_claim (amount : number)
    (participants : list participant) (pcts : gmap N number) : Prop :=
  differ_by_more_than (of_cents 1) (sum_entries participants pcts)
    (of_Z 100) = true →
  calculateSplit amount participants (Some "percentage"%string)
    (Some {| amounts := None; percentages := Some pcts |})
  = Throw ValidationError.

Definition recognized (method : string) : bool :=
  String.eqb method "equal" || String.eqb method "exact"
  || String.eqb method "percentage".

(** The claim on malformed input at one input. *)
Definition validation_claim (amount : number) (participants : list participant)
    (method : string) (data : option split_data) : Prop :=
  participants = [] ∨ leb (parseFloat amount) (of_Z 0) = true
  ∨ recognized method = false →
  calculateSplit amount participants (Some method) data
  = Throw ValidationError.

(** The claim on a participant without a percentage at one input. *)
Definition missing_percentage_claim (amount : number)
    (participants : list participant) (pcts : gmap N number)
    (p : participant) : Prop :=
  p ∈ participants → pcts !! id p = None →
  ∃ shares x,
    calculateSplit amount participants (Some "percentage"%string)
      (Some {| amounts := None; percentages := Some pcts |})
    = Return shares
    ∧ shares !! id p = Some x ∧ is_zero x = true.

(** ** Sample members *)

Definition A : member_id := 1%N.
Definition B : member_id := 2%N.
Definition C : member_id := 3%N.

Definition pA : participant := {| id := A |}.
Definition pB : participant := {| id := B |}.
Definition pC : participant := {| id := C |}.

(** Six participants, with the ids 1 to 6. *)
Definition six : list participant :=
  [pA; pB; pC; {| id := 4%N |}; {| id := 5%N |}; {| id := 6%N |}].

(** * The service: ledger, balances and reminder candidates *)

(** The frontend only calls the service (POST /expenses/:id/settle,
    GET /groups/:id/balance, GET /reminders/group/:id/reminder-candidates)
    and shows what it answers.  The definitions below follow the
    specification, with currency amounts as integers of the minor unit. *)

Module Ledger.

(** The payment methods the client offers (PAYMENT_METHODS). *)
Inductive payment_method : Type :=
  | cash | bank_transfer | online | upi | other.

(** Modelled from the spec: the split method with its method data, as the
    closed shape section 9 asks for; percentages are in hundredths of a
    percent. *)
Inductive method_data : Type :=
  | equal
  | exact (supplied : list Z)
  | percentage (hundredths : list Z).

(** Modelled from the spec: a Participation (section 3): one member's owed
    share in one expense, with its payment state. *)
Record Participation : Type := {
  member : member_id;
  share : Z;
  paid : bool;
  settlement_method : option payment_method;
  settled_at : option N
}.

(** Modelled from the spec: an Expense (section 3) with the ordered
    Participations it owns. *)
Record Expense : Type := {
  expense_id : N;
  group : N;
  payer : member_id;
  total_amount : Z;
  category : string;
  split_method : method_data;
  created_at : N;
  participations : list Participation
}.

(** Modelled from the spec: what the persistence collaborator stores: the
    member set of every group, the expenses in creation order, and the id
    the next expense gets. *)
Record ledger : Type := {
  members : gmap N (gset N);
  expenses : list Expense;
  next_id : N
}.

(** A participation is identified by its expense and its member ("one
    Participation row per (expense, participant) pair"). *)
Abbreviation participation_id := (N * N)%type.

Definition sum_Z (l : list Z) : Z := foldr Z.add 0 l.

(** Modelled from the spec: the Split Calculator of section 4.1,
    [split(totalAmount, participantIds, method, methodData)], the shares
    listed in the order of the participants. *)
Definition split (totalAmount : Z) (participantIds : list member_id)
    (md : method_data) : completion (list (member_id * Z)) :=
  if decide (participantIds = [] ∨ totalAmount ≤ 0) then Throw ValidationError
  else
    match md with
    | equal =>
        Return (zip participantIds
                  (spec_equal_cents totalAmount (length participantIds)))
    | exact supplied =>
        if decide (length supplied = length participantIds
                   ∧ Z.abs (sum_Z supplied - totalAmount) ≤ 1)
        then Return (zip participantIds supplied)
        else Throw ValidationError
    | percentage hundredths =>
        if decide (length hundredths = length participantIds
                   ∧ Z.abs (sum_Z hundredths - 10000) ≤ 1)
        then Return (zip participantIds
                       (spec_percentage_cents totalAmount hundredths))
        else Throw ValidationError
    end.

Definition unpaid (row : member_id * Z) : Participation :=
  {| member := row.1; share := row.2; paid := false;
     settlement_method := None; settled_at := None |}.

(** An operation returns a value or throws, and leaves a ledger. *)
Definition action (X : Type) : Type := ledger → completion X * ledger.

Definition find_expense (l : ledger) (eid : N) : option Expense :=
  List.find (fun e => N.eqb (expense_id e) eid) (expenses l).

Definition find_participation (l : ledger) (pid : participation_id)
  : option Participation :=
  e ← find_expense l pid.1;
  List.find (fun p => N.eqb (member p) pid.2) (participations e).

Definition with_expenses (l : ledger) (es : list Expense) : ledger :=
  {| members := members l; expenses := es; next_id := next_id l |}.

(** Modelled from the spec: "Expense and its Participations are created
    atomically", the shares coming from the Split Calculator. *)
Definition createExpense (gid : N) (payer : member_id) (totalAmount : Z)
    (participantIds : list member_id) (md : method_data)
    (category : string) (now : N) : action Expense :=
  fun l =>
    match split totalAmount participantIds md with
    | Throw err => (Throw err, l)
    | Return rows =>
        let e := {| expense_id := next_id l; group := gid; payer := payer;
                    total_amount := totalAmount; category := category;
                    split_method := md; created_at := now;
                    participations := unpaid <$> rows |} in
        (Return e, {| members := members l;
                      expenses := expenses l ++ [e];
                      next_id := N.succ (next_id l) |})
    end.

Definition replace_expense (e' : Expense) (e : Expense) : Expense :=
  if N.eqb (expense_id e) (expense_id e') then e' else e.

(** Modelled from the spec: "editing an Expense regenerates its
    Participations (old ones discarded) recomputing shares from the new
    amount/method"; the participant set stays the one fixed at creation. *)
Definition editExpense (eid : N) (totalAmount : Z) (md : method_data)
  : action Expense :=
  fun l =>
    match find_expense l eid with
    | None => (Throw NotFoundError, l)
    | Some e =>
        match split totalAmount (member <$> participations e) md with
        | Throw err => (Throw err, l)
        | Return rows =>
            let e' := {| expense_id := expense_id e; group := group e;
                         payer := payer e; total_amount := totalAmount;
                         category := category e; split_method := md;
                         created_at := created_at e;
                         participations := unpaid <$> rows |} in
            (Return e', with_expenses l (replace_expense e' <$> expenses l))
        end
    end.

(** Modelled from the spec: "deleting an Expense removes its
    Participations". *)
Definition deleteExpense (eid : N) : action unit :=
  fun l =>
    match find_expense l eid with
    | None => (Throw NotFoundError, l)
    | Some _ =>
        (Return (),
         with_expenses l
           (List.filter (fun e => negb (N.eqb (expense_id e) eid))
                        (expenses l)))
    end.

Definition settle (method : payment_method) (now : N) (p : Participation)
  : Participation :=
  {| member := member p; share := share p; paid := true;
     settlement_method := Some method; settled_at := Some now |}.

Definition settle_in (pid : participation_id) (method : payment_method)
    (now : N) (e : Expense) : Expense :=
  if N.eqb (expense_id e) pid.1 then
    {| expense_id := expense_id e; group := group e; payer := payer e;
       total_amount := total_amount e; category := category e;
       split_method := split_method e; created_at := created_at e;
       participations :=
         (fun p => if N.eqb (member p) pid.2 then settle method now p else p)
           <$> participations e |}
  else e.

(** Modelled from the spec: the Settlement Ledger of section 4.2,
    [markSettled(participationId, method)]: NotFoundError when the
    participation does not exist, ConflictError when it is already
    settled, and otherwise the participation turns paid. *)
Definition markSettled (pid : participation_id) (method : payment_method)
    (now : N) : action Participation :=
  fun l =>
    match find_participation l pid with
    | None => (Throw NotFoundError, l)
    | Some p =>
        if paid p then (Throw ConflictError, l)
        else (Return (settle method now p),
              with_expenses l (settle_in pid method now <$> expenses l))
    end.

(** The mutations of the exposed surface. *)
Inductive operation : Type :=
  | Create (gid : N) (payer : member_id) (totalAmount : Z)
      (participantIds : list member_id) (md : method_data)
      (category : string) (now : N)
  | Edit (eid : N) (totalAmount : Z) (md : method_data)
  | Delete (eid : N)
  | Settle (pid : participation_id) (method : payment_method) (now : N).

Definition apply_operation (o : operation) (l : ledger) : ledger :=
  match o with
  | Create gid payer totalAmount ids md cat now =>
      (createExpense gid payer totalAmount ids md cat now l).2
  | Edit eid totalAmount md => (editExpense eid totalAmount md l).2
  | Delete eid => (deleteExpense eid l).2
  | Settle pid method now => (markSettled pid method now l).2
  end.

(** The ledger after a sequence of requests, each run to completion. *)
Definition run (ops : list operation) (l : ledger) : ledger :=
  foldl (fun l o => apply_operation o l) l ops.

(** *** Balance Engine *)

(** Adding [v] to the net amount of [k], a member not seen yet counting
    for 0. *)
Definition credit (k : member_id) (v : Z) (bal : gmap N Z) : gmap N Z :=
  <[k := default 0 (bal !! k) + v]> bal.

(** "for every unpaid Participation, debit the participant by the share
    and credit the payer by the same share" *)
Definition post_participation (payer : member_id) (bal : gmap N Z)
    (p : Participation) : gmap N Z :=
  if paid p then bal
  else credit payer (share p) (credit (member p) (- share p) bal).

Definition post_expense (gid : N) (bal : gmap N Z) (e : Expense)
  : gmap N Z :=
  if N.eqb (group e) gid
  then foldl (post_participation (payer e)) bal (participations e)
  else bal.

(** Modelled from the spec: the Balance Engine of section 4.3,
    [computeGroupBalances(groupId)]: every member of the group starts at
    0 ("an empty group yields all-zero balances") and the unpaid
    participations of the group's expenses are folded in. *)
Definition computeGroupBalances (l : ledger) (gid : N) : gmap N Z :=
  foldl (post_expense gid)
        (gset_to_gmap 0 (default ∅ (members l !! gid)))
        (expenses l).

(** The sum of all members' net balances. *)
Definition sum_balances (bal : gmap N Z) : Z :=
  map_fold (fun _ v acc => v + acc) 0 bal.

(** *** Reminder Candidate Selector *)

(** An element of the sequence [candidates] yields: {memberId, amountOwed}. *)
Record candidate : Type := { memberId : member_id; amountOwed : Z }.

(** "ordered by amount owed descending (largest debtor first), ties broken
    by member id ascending" *)
Definition before (c1 c2 : candidate) : Prop :=
  amountOwed c2 < amountOwed c1
  ∨ (amountOwed c1 = amountOwed c2 ∧ (memberId c1 ≤ memberId c2)%N).

#[global] Instance before_dec : RelDecision before.
Proof. intros c1 c2. unfold before. apply _. Defined.

(** "members whose net balance is negative and whose absolute value ≥
    minimumAmount" *)
Definition eligible (minimumAmount : Z) (row : member_id * Z)
  : option candidate :=
  if decide (row.2 < 0 ∧ minimumAmount ≤ Z.abs row.2)
  then Some {| memberId := row.1; amountOwed := Z.abs row.2 |}
  else None.

(** The selection on a mapping of net balances. *)
Definition select (bal : gmap N Z) (minimumAmount : Z) : list candidate :=
  merge_sort before (omap (eligible minimumAmount) (map_to_list bal)).

(** Modelled from the spec: the Reminder Candidate Selector of section 4.4,
    [candidates(groupId, minimumAmount)], on the balances of the Balance
    Engine. *)
Definition candidates (l : ledger) (gid : N) (minimumAmount : Z)
  : list candidate :=
  select (computeGroupBalances l gid) minimumAmount.

End Ledger.

Import Ledger.

(** ** Sample ledgers *)

(** A group of the three members A, B and C, with no expense yet. *)
Definition trio : ledger :=
  {| members := {[ 7%N := {[ A; B; C ]} ]}; expenses := []; next_id := 1%N |}.

(** The scenario of section 8: an expense of $100 paid by A and split
    equally among A, B and C. *)
Definition dinner : action Expense :=
  createExpense 7 A 10000 [A; B; C] equal "food" 0.

(** The ledger after the dinner, once B has settled by UPI. *)
Definition dinner_settled_by_B : ledger :=
  (markSettled (1%N, B) upi 5 (dinner trio).2).2.

(** The balances of the reminder scenario of section 8 (A: +50, B: -30,
    C: -5) in minor units. *)
Definition sample_balances : gmap N Z :=
  {[ A := 5000; B := -3000; C := -500 ]}.

(** * The other helpers of the client (frontend/src/services/api.js) *)

(** ** calculateSplit and a [data] argument of [null] *)

(** The [data] argument as the caller passes it.  The default value [{}]
    of the parameter replaces an omitted argument, that is [undefined],
    and nothing else: a [null] reaches the body. *)
Inductive data_argument : Type :=
  | data_omitted
  | data_null
  | data_object (d : split_data).

Definition as_argument (data : option split_data) : data_argument :=
  match data with
  | Some d => data_object d
  | None => data_omitted
  end.

(** The object of which [data.amounts] or [data.percentages] is read:
    reading a property of [null] (or of [undefined]) raises TypeError. *)
Definition object_of (data : data_argument) : completion split_data :=
  match data with
  | data_object d => Return d
  | data_null | data_omitted => Throw TypeError
  end.

(** [calculateSplit(amount, participants, method = 'equal', data = {})]
    with the [data] argument as passed.  The labels 'equal' and [default]
    do not read [data]; 'exact' reads [data.amounts] once, 'percentage'
    reads [data.percentages] once per participant. *)
Definition calculateSplit_call (amount : number)
    (participants : list participant) (method : option string)
    (data : data_argument) : completion (gmap N number) :=
  let method := default "equal"%string method in
  let data :=
    match data with
    | data_omitted => data_object no_data
    | _ => data
    end in
  let totalAmount := parseFloat amount in
  if String.eqb method "equal" then
    let amountPerPerson :=
      div totalAmount (of_Z (Z.of_nat (length participants))) in
    reduce (fun acc participant =>
              Return (<[id participant := amountPerPerson]> acc))
           participants ∅
  else if String.eqb method "exact" then
    d ← object_of data;
    Return (default ∅ (amounts d))
  else if String.eqb method "percentage" then
    reduce (fun acc participant =>
              d ← object_of data;
              entry ← get_percentage d (id participant);
              let percentage := or_zero entry in
              Return (<[id participant :=
                          div (mul totalAmount percentage) (of_Z 100)]> acc))
           participants ∅
  else
    Return ∅.

(** ** JavaScript strings *)

(** A JavaScript string is a sequence of UTF-16 code units.  The literals
    of the source are ASCII, where a code unit is the byte of the
    character. *)
Definition js (s : string) : list N :=
  N_of_ascii <$> String.list_ascii_of_string s.

(** [\d] without the unicode flag: the ASCII digits. *)
Definition is_digit (c : N) : bool := (48 <=? c)%N && (c <=? 57)%N.

(** [\s]: the WhiteSpace and LineTerminator code points. *)
Definition is_space (c : N) : bool :=
  ((9 <=? c) && (c <=? 13) || (c =? 32) || (c =? 160) || (c =? 5760)
   || (8192 <=? c) && (c <=? 8202) || (c =? 8232) || (c =? 8233)
   || (c =? 8239) || (c =? 8287) || (c =? 12288) || (c =? 65279))%N.

(** An integer argument of [substring] brought into [0, length]. *)
Definition clamp (len : nat) (i : Z) : nat := Nat.min (Z.to_nat i) len.

(** [s.substring(start, end)] for integer arguments: both are clamped and
    swapped when out of order. *)
Definition substring (s : list N) (start end_ : Z) : list N :=
  let a := clamp (length s) start in
  let b := clamp (length s) end_ in
  take (Nat.max a b - Nat.min a b) (drop (Nat.min a b) s).

(** [s.substring(start)] *)
Definition substring_from (s : list N) (start : Z) : list N :=
  drop (clamp (length s) start) s.

(** [s.split(sep)] for a separator of one code unit: the pieces between
    the separators, the empty ones included; never an empty array. *)
Fixpoint split_on (sep : N) (s : list N) : list (list N) :=
  match s with
  | [] => [[]]
  | c :: s' =>
      if (c =? sep)%N then [] :: split_on sep s'
      else match split_on sep s' with
           | w :: ws => (c :: w) :: ws
           | [] => [[c]]
           end
  end.

(** ** formatPhoneNumber, truncateText, getInitials *)

(** [phone.replace(/\D/g, '')] keeps the digits. *)
Definition formatPhoneNumber (phone : list N) : list N :=
  let cleaned := List.filter is_digit phone in
  if Nat.eqb (length cleaned) 10 then
    js "(" ++ substring cleaned 0 3 ++ js ") " ++ substring cleaned 3 6
       ++ js "-" ++ substring_from cleaned 6
  else phone.

(** [truncateText(text, maxLength = 50)]: [text] is [None] when it is
    [undefined] or [null]; [maxLength] is an integer. *)
Definition truncateText (text : option (list N)) (maxLength : option Z)
  : list N :=
  let maxLength := default 50 maxLength in
  match text with
  | None | Some [] => []
  | Some text =>
      if Z.of_nat (length text) <=? maxLength then text
      else substring text 0 maxLength ++ js "..."
  end.

(** [getInitials(name)], with [String.prototype.toUpperCase] as a
    parameter (the Unicode case tables are not part of the program). *)
Definition getInitials (toUpperCase : list N → list N)
    (name : option (list N)) : list N :=
  match name with
  | None | Some [] => js "U"
  | Some name =>
      concat (take 2 ((fun word => toUpperCase (take 1 word))
                        <$> split_on 32 name))
  end.

(** Upper-casing of ASCII letters, a stand-in for [toUpperCase] on the
    names of the examples. *)
Definition ascii_upper (s : list N) : list N :=
  (fun c => if (97 <=? c)%N && (c <=? 122)%N then (c - 32)%N else c) <$> s.

(** ** generateColor, getBalanceColor *)

Definition colors : list string :=
  ["#3b82f6"; "#ef4444"; "#10b981"; "#f59e0b"; "#8b5cf6";
   "#ec4899"; "#06b6d4"; "#84cc16"; "#6366f1"; "#f97316"]%string.

(** [generateColor(seed)] for an integer seed: [%] is the remainder of the
    truncated division, with the sign of the seed, and a negative index
    reads [undefined] ([None]). *)
Definition generateColor (seed : Z) : option string :=
  let i := Z.rem seed (Z.of_nat (length colors)) in
  if i <? 0 then None else colors !! Z.to_nat i.

Definition getBalanceColor (balance : number) : string :=
  if ltb (of_Z 0) balance then "text-green-600"
  else if ltb balance (of_Z 0) then "text-red-600"
  else "text-gray-600".

(** ** Regular expressions *)

(** The patterns of the source use character classes, concatenation,
    [?], [+] and counted repetition, always between [^] and [$] and without
    flags.  For such a pattern [RegExp.prototype.test] answers whether the
    whole string is in the language of the pattern; it is computed here by
    derivatives. *)
Inductive regex : Type :=
  | Never
  | Epsilon
  | Class (p : N → bool)
  | Seq (r1 r2 : regex)
  | Alt (r1 r2 : regex)
  | Star (r : regex).

(** [r+], [r?], [r{n}], [r{0,n}], [r{n,m}] and [r{n,}] *)
Definition Plus (r : regex) : regex := Seq r (Star r).
Definition Opt (r : regex) : regex := Alt Epsilon r.

Fixpoint Times (n : nat) (r : regex) : regex :=
  match n with
  | O => Epsilon
  | S n => Seq r (Times n r)
  end.

Fixpoint AtMost (n : nat) (r : regex) : regex :=
  match n with
  | O => Epsilon
  | S n => Opt (Seq r (AtMost n r))
  end.

Definition Between (n m : nat) (r : regex) : regex :=
  Seq (Times n r) (AtMost (m - n) r).

Definition AtLeast (n : nat) (r : regex) : regex := Seq (Times n r) (Star r).

(** One character, and a range of characters [a-b]. *)
Definition chr (a : ascii) : N := N_of_ascii a.
Definition Char (a : ascii) : regex := Class (N.eqb (chr a)).
Definition in_range (a b : ascii) (c : N) : bool :=
  (chr a <=? c)%N && (c <=? chr b)%N.

Fixpoint nullable (r : regex) : bool :=
  match r with
  | Never => false
  | Epsilon => true
  | Class _ => false
  | Seq r1 r2 => nullable r1 && nullable r2
  | Alt r1 r2 => nullable r1 || nullable r2
  | Star _ => true
  end.

Fixpoint derive (c : N) (r : regex) : regex :=
  match r with
  | Never | Epsilon => Never
  | Class p => if p c then Epsilon else Never
  | Seq r1 r2 =>
      if nullable r1 then Alt (Seq (derive c r1) r2) (derive c r2)
      else Seq (derive c r1) r2
  | Alt r1 r2 => Alt (derive c r1) (derive c r2)
  | Star r => Seq (derive c r) (Star r)
  end.

(** [/^r$/.test(s)] *)
Fixpoint test (r : regex) (s : list N) : bool :=
  match s with
  | [] => nullable r
  | c :: s => test (derive c r) s
  end.

(** The strings of a pattern. *)
Inductive lang : regex → list N → Prop :=
  | lang_epsilon : lang Epsilon []
  | lang_class p c : p c = true → lang (Class p) [c]
  | lang_seq r1 r2 s1 s2 :
      lang r1 s1 → lang r2 s2 → lang (Seq r1 r2) (s1 ++ s2)
  | lang_alt_l r1 r2 s : lang r1 s → lang (Alt r1 r2) s
  | lang_alt_r r1 r2 s : lang r2 s → lang (Alt r1 r2) s
  | lang_star_nil r : lang (Star r) []
  | lang_star_cons r s1 s2 :
      lang r s1 → lang (Star r) s2 → lang (Star r) (s1 ++ s2).

(** ** validateEmail, validatePhone and the validation rules *)

(** [[^\s@]] *)
Definition not_space_or_at (c : N) : bool :=
  negb (is_space c) && negb (c =? chr "@")%N.

(** [/^[^\s@]+@[^\s@]+\.[^\s@]+$/] *)
Definition emailRegex : regex :=
  Seq (Plus (Class not_space_or_at))
    (Seq (Char "@")
       (Seq (Plus (Class not_space_or_at))
          (Seq (Char ".") (Plus (Class not_space_or_at))))).

Definition validateEmail (email : list N) : bool := test emailRegex email.

(** [[\s-()]]: without the unicode flag a class escape next to [-] makes
    the dash a literal, so the class is whitespace, '-', '(' and ')'. *)
Definition phone_separator (c : N) : bool :=
  is_space c || (c =? chr "-")%N || (c =? chr "(")%N || (c =? chr ")")%N.

(** [/^[+]?[1-9]\d{1,14}$/] *)
Definition phoneRegex : regex :=
  Seq (Opt (Char "+"))
    (Seq (Class (in_range "1" "9")) (Between 1 14 (Class is_digit))).

(** [phoneRegex.test(phone.replace(/[\s-()]/g, ''))] *)
Definition validatePhone (phone : list N) : bool :=
  test phoneRegex (List.filter (fun c => negb (phone_separator c)) phone).

(** [[a-zA-Z0-9._%+-]], [[a-zA-Z0-9.-]] and [[a-zA-Z]] *)
Definition is_letter (c : N) : bool := in_range "a" "z" c || in_range "A" "Z" c.

Definition rule_local (c : N) : bool :=
  is_letter c || is_digit c || (c =? chr ".")%N || (c =? chr "_")%N
  || (c =? chr "%")%N || (c =? chr "+")%N || (c =? chr "-")%N.

Definition rule_domain (c : N) : bool :=
  is_letter c || is_digit c || (c =? chr ".")%N || (c =? chr "-")%N.

(** VALIDATION_RULES.EMAIL:
    [/^[a-zA-Z0-9._%+-]+@[a-zA-Z0-9.-]+\.[a-zA-Z]{2,}$/] *)
Definition EMAIL : regex :=
  Seq (Plus (Class rule_local))
    (Seq (Char "@")
       (Seq (Plus (Class rule_domain))
          (Seq (Char ".") (AtLeast 2 (Class is_letter))))).

(** VALIDATION_RULES.PHONE: [/^[+]?[0-9]{10,15}$/] *)
Definition PHONE : regex :=
  Seq (Opt (Char "+")) (Between 10 15 (Class (in_range "0" "9"))).

(** * The slices of the store (redux/slices) *)

(** Both slices keep lists of records with an [id] and update them in the
    same way.  [findIndex] is [list.findIndex(x => x.id === wanted)], with
    [None] for -1; [replace_found] is
    [i = list.findIndex(x => x.id === u.id); if (i !== -1) list[i] = u]. *)
Definition findIndex {X : Type} (key : X → N) (wanted : N) (l : list X)
  : option nat :=
  fst <$> list_find (fun x => key x = wanted) l.

Definition replace_found {X : Type} (key : X → N) (u : X) (l : list X)
  : list X :=
  match findIndex key (key u) l with
  | Some i => <[i := u]> l
  | None => l
  end.

(** ** The expense slice (redux/slices/expenseSlice.js) *)

Module ExpenseSlice.

(** An expense as the service returns it.  The reducers read its [id] and
    its [group_id]; the other properties travel along untouched. *)
Record expense : Type := { id : N; group_id : N; details : string }.

(** The state of the slice.  Statistics, reminder candidates and pagination
    are stored as they arrive and never looked into. *)
Record state : Type := {
  expenses : gmap N (list expense);
  currentExpense : option expense;
  statistics : gmap N string;
  reminderCandidates : gmap N string;
  pagination : gmap N string;
  isLoading : bool;
  isCreating : bool;
  isUpdating : bool;
  isDeleting : bool;
  isSendingReminder : bool;
  error : option string
}.

Definition initialState : state :=
  {| expenses := ∅; currentExpense := None; statistics := ∅;
     reminderCandidates := ∅; pagination := ∅; isLoading := false;
     isCreating := false; isUpdating := false; isDeleting := false;
     isSendingReminder := false; error := None |}.

(** Assignments to one property of the draft. *)
Definition set_expenses (v : gmap N (list expense)) (s : state) : state :=
  {| expenses := v;
     currentExpense := currentExpense s;
     statistics := statistics s;
     reminderCandidates := reminderCandidates s;
     pagination := pagination s;
     isLoading := isLoading s;
     isCreating := isCreating s;
     isUpdating := isUpdating s;
     isDeleting := isDeleting s;
     isSendingReminder := isSendingReminder s;
     error := error s |}.

Definition set_currentExpense (v : option expense) (s : state) : state :=
  {| expenses := expenses s;
     currentExpense := v;
     statistics := statistics s;
     reminderCandidates := reminderCandidates s;
     pagination := pagination s;
     isLoading := isLoading s;
     isCreating := isCreating s;
     isUpdating := isUpdating s;
     isDeleting := isDeleting s;
     isSendingReminder := isSendingReminder s;
     error := error s |}.

Definition set_statistics (v : gmap N string) (s : state) : state :=
  {| expenses := expenses s;
     currentExpense := currentExpense s;
     statistics := v;
     reminderCandidates := reminderCandidates s;
     pagination := pagination s;
     isLoading := isLoading s;
     isCreating := isCreating s;
     isUpdating := isUpdating s;
     isDeleting := isDeleting s;
     isSendingReminder := isSendingReminder s;
     error := error s |}.

Definition set_reminderCandidates (v : gmap N string) (s : state) : state :=
  {| expenses := expenses s;
     currentExpense := currentExpense s;
     statistics := statistics s;
     reminderCandidates := v;
     pagination := pagination s;
     isLoading := isLoading s;
     isCreating := isCreating s;
     isUpdating := isUpdating s;
     isDeleting := isDeleting s;
     isSendingReminder := isSendingReminder s;
     error := error s |}.

Definition set_pagination (v : gmap N string) (s : state) : state :=
  {| expenses := expenses s;
     currentExpense := currentExpense s;
     statistics := statistics s;
     reminderCandidates := reminderCandidates s;
     pagination := v;
     isLoading := isLoading s;
     isCreating := isCreating s;
     isUpdating := isUpdating s;
     isDeleting := isDeleting s;
     isSendingReminder := isSendingReminder s;
     error := error s |}.

Definition set_isLoading (v : bool) (s : state) : state :=
  {| expenses := expenses s;
     currentExpense := currentExpense s;
     statistics := statistics s;
     reminderCandidates := reminderCandidates s;
     pagination := pagination s;
     isLoading := v;
     isCreating := isCreating s;
     isUpdating := isUpdating s;
     isDeleting := isDeleting s;
     isSendingReminder := isSendingReminder s;
     error := error s |}.

Definition set_isCreating (v : bool) (s : state) : state :=
  {| expenses := expenses s;
     currentExpense := currentExpense s;
     statistics := statistics s;
     reminderCandidates := reminderCandidates s;
     pagination := pagination s;
     isLoading := isLoading s;
     isCreating := v;
     isUpdating := isUpdating s;
     isDeleting := isDeleting s;
     isSendingReminder := isSendingReminder s;
     error := error s |}.

Definition set_isUpdating (v : bool) (s : state) : state :=
  {| expenses := expenses s;
     currentExpense := currentExpense s;
     statistics := statistics s;
     reminderCandidates := reminderCandidates s;
     pagination := pagination s;
     isLoading := isLoading s;
     isCreating := isCreating s;
     isUpdating := v;
     isDeleting := isDeleting s;
     isSendingReminder := isSendingReminder s;
     error := error s |}.

Definition set_isDeleting (v : bool) (s : state) : state :=
  {| expenses := expenses s;
     currentExpense := currentExpense s;
     statistics := statistics s;
     reminderCandidates := reminderCandidates s;
     pagination := pagination s;
     isLoading := isLoading s;
     isCreating := isCreating s;
     isUpdating := isUpdating s;
     isDeleting := v;
     isSendingReminder := isSendingReminder s;
     error := error s |}.

Definition set_isSendingReminder (v : bool) (s : state) : state :=
  {| expenses := expenses s;
     currentExpense := currentExpense s;
     statistics := statistics s;
     reminderCandidates := reminderCandidates s;
     pagination := pagination s;
     isLoading := isLoading s;
     isCreating := isCreating s;
     isUpdating := isUpdating s;
     isDeleting := isDeleting s;
     isSendingReminder := v;
     error := error s |}.

Definition set_error (v : option string) (s : state) : state :=
  {| expenses := expenses s;
     currentExpense := currentExpense s;
     statistics := statistics s;
     reminderCandidates := reminderCandidates s;
     pagination := pagination s;
     isLoading := isLoading s;
     isCreating := isCreating s;
     isUpdating := isUpdating s;
     isDeleting := isDeleting s;
     isSendingReminder := isSendingReminder s;
     error := v |}.

(** The actions the slice has a case for: its own reducers and the
    lifecycle actions of the thunks; [other] stands for every other action
    (such as expenses/settleParticipation/pending and .../rejected), which
    leaves the state as it is.  A rejected action carries the message given
    to [rejectWithValue]. *)
Inductive action : Type :=
  | clearCurrentExpense
  | clearError
  | clearGroupExpenses (groupId : N)
  | updateExpenseInList (updatedExpense : expense)
  | addExpenseToGroup (groupId : N) (e : expense)
  | fetchGroupExpenses_pending
  | fetchGroupExpenses_fulfilled (groupId : N) (fetched : list expense)
      (page : string)
  | fetchGroupExpenses_rejected (payload : option string)
  | fetchExpenseDetails_pending
  | fetchExpenseDetails_fulfilled (e : expense)
  | fetchExpenseDetails_rejected (payload : option string)
  | createExpense_pending
  | createExpense_fulfilled (e : expense)
  | createExpense_rejected (payload : option string)
  | updateExpense_pending
  | updateExpense_fulfilled (updatedExpense : expense)
  | updateExpense_rejected (payload : option string)
  | deleteExpense_pending
  | deleteExpense_fulfilled (deletedExpenseId : N)
  | deleteExpense_rejected (payload : option string)
  | settleExpenseParticipation_fulfilled (updatedExpense : expense)
  | fetchExpenseStatistics_fulfilled (groupId : N) (stats : string)
  | sendPaymentReminder_pending
  | sendPaymentReminder_fulfilled
  | sendPaymentReminder_rejected (payload : option string)
  | sendBulkReminders_pending
  | sendBulkReminders_fulfilled
  | sendBulkReminders_rejected (payload : option string)
  | fetchReminderCandidates_fulfilled (groupId : N) (found : string)
  | other.

(** The update shared by updateExpenseInList, updateExpense.fulfilled and
    settleExpenseParticipation.fulfilled: every group's list, then the
    current expense. *)
Definition update_cached (updatedExpense : expense) (s : state) : state :=
  let s := set_expenses (replace_found id updatedExpense <$> expenses s) s in
  match currentExpense s with
  | Some current =>
      if N.eqb (id current) (id updatedExpense)
      then set_currentExpense (Some updatedExpense) s
      else s
  | None => s
  end.

(** [if (state.expenses[groupId]) state.expenses[groupId].unshift(e)] *)
Definition unshift_cached (groupId : N) (e : expense) (s : state) : state :=
  match expenses s !! groupId with
  | Some l => set_expenses (<[groupId := e :: l]> (expenses s)) s
  | None => s
  end.

Definition reducer (s : state) (a : action) : state :=
  match a with
  | clearCurrentExpense => set_currentExpense None s
  | clearError => set_error None s
  | clearGroupExpenses groupId =>
      set_pagination (delete groupId (pagination s))
        (set_expenses (delete groupId (expenses s)) s)
  | updateExpenseInList updatedExpense => update_cached updatedExpense s
  | addExpenseToGroup groupId e => unshift_cached groupId e s
  | fetchGroupExpenses_pending => set_error None (set_isLoading true s)
  | fetchGroupExpenses_fulfilled groupId fetched page =>
      set_error None
        (set_pagination (<[groupId := page]> (pagination s))
           (set_expenses (<[groupId := fetched]> (expenses s))
              (set_isLoading false s)))
  | fetchGroupExpenses_rejected payload =>
      set_error payload (set_isLoading false s)
  | fetchExpenseDetails_pending => set_error None (set_isLoading true s)
  | fetchExpenseDetails_fulfilled e =>
      set_error None (set_currentExpense (Some e) (set_isLoading false s))
  | fetchExpenseDetails_rejected payload =>
      set_error payload (set_isLoading false s)
  | createExpense_pending => set_error None (set_isCreating true s)
  | createExpense_fulfilled e =>
      set_error None (unshift_cached (group_id e) e (set_isCreating false s))
  | createExpense_rejected payload =>
      set_error payload (set_isCreating false s)
  | updateExpense_pending => set_error None (set_isUpdating true s)
  | updateExpense_fulfilled updatedExpense =>
      set_error None (update_cached updatedExpense (set_isUpdating false s))
  | updateExpense_rejected payload =>
      set_error payload (set_isUpdating false s)
  | deleteExpense_pending => set_error None (set_isDeleting true s)
  | deleteExpense_fulfilled deletedExpenseId =>
      let s := set_isDeleting false s in
      let s :=
        set_expenses
          (List.filter (fun e => negb (N.eqb (id e) deletedExpenseId))
             <$> expenses s) s in
      let s :=
        match currentExpense s with
        | Some current =>
            if N.eqb (id current) deletedExpenseId
            then set_currentExpense None s
            else s
        | None => s
        end in
      set_error None s
  | deleteExpense_rejected payload =>
      set_error payload (set_isDeleting false s)
  | settleExpenseParticipation_fulfilled updatedExpense =>
      update_cached updatedExpense s
  | fetchExpenseStatistics_fulfilled groupId stats =>
      set_statistics (<[groupId := stats]> (statistics s)) s
  | sendPaymentReminder_pending => set_isSendingReminder true s
  | sendPaymentReminder_fulfilled => set_isSendingReminder false s
  | sendPaymentReminder_rejected payload =>
      set_error payload (set_isSendingReminder false s)
  | sendBulkReminders_pending => set_isSendingReminder true s
  | sendBulkReminders_fulfilled => set_isSendingReminder false s
  | sendBulkReminders_rejected payload =>
      set_error payload (set_isSendingReminder false s)
  | fetchReminderCandidates_fulfilled groupId found =>
      set_reminderCandidates (<[groupId := found]> (reminderCandidates s)) s
  | other => s
  end.

(** An expense the cache holds: in the list of some group or as the
    current expense. *)
Definition cached (s : state) (e : expense) : Prop :=
  (∃ g l, expenses s !! g = Some l ∧ e ∈ l) ∨ currentExpense s = Some e.

(** The three actions that bring an updated expense into the cache. *)
Definition brings (u : expense) (a : action) : Prop :=
  a = updateExpenseInList u ∨ a = updateExpense_fulfilled u
  ∨ a = settleExpenseParticipation_fulfilled u.

(** *** A sample cache *)

Definition lunch : expense := {| id := 1; group_id := 7; details := "lunch" |}.
Definition taxi : expense := {| id := 2; group_id := 7; details := "taxi" |}.
Definition hotel : expense := {| id := 3; group_id := 7; details := "hotel" |}.

Definition lunch_settled : expense :=
  {| id := 1; group_id := 7; details := "lunch, settled" |}.

(** Group 7 loaded with two expenses, the first one open in the detail
    view. *)
Definition loaded : state :=
  reducer
    (reducer initialState
       (fetchGroupExpenses_fulfilled 7 [lunch; taxi] "page 1 of 1"))
    (fetchExpenseDetails_fulfilled lunch).

End ExpenseSlice.

(** ** The group slice (redux/slices/groupSlice.js) *)

Module GroupSlice.

(** A group as the service returns it; the reducers read its [id]. *)
Record group : Type := { id : N; name : string; members : list N }.

Record state : Type := {
  groups : list group;
  currentGroup : option group;
  groupBalances : gmap N string;
  isLoading : bool;
  isCreating : bool;
  isUpdating : bool;
  error : option string;
  lastFetchTime : option N
}.

Definition initialState : state :=
  {| groups := []; currentGroup := None; groupBalances := ∅;
     isLoading := false; isCreating := false; isUpdating := false;
     error := None; lastFetchTime := None |}.

Definition set_groups (v : list group) (s : state) : state :=
  {| groups := v; currentGroup := currentGroup s;
     groupBalances := groupBalances s; isLoading := isLoading s;
     isCreating := isCreating s; isUpdating := isUpdating s;
     error := error s; lastFetchTime := lastFetchTime s |}.

Definition set_currentGroup (v : option group) (s : state) : state :=
  {| groups := groups s; currentGroup := v;
     groupBalances := groupBalances s; isLoading := isLoading s;
     isCreating := isCreating s; isUpdating := isUpdating s;
     error := error s; lastFetchTime := lastFetchTime s |}.

Definition set_groupBalances (v : gmap N string) (s : state) : state :=
  {| groups := groups s; currentGroup := currentGroup s;
     groupBalances := v; isLoading := isLoading s;
     isCreating := isCreating s; isUpdating := isUpdating s;
     error := error s; lastFetchTime := lastFetchTime s |}.

Definition set_isLoading (v : bool) (s : state) : state :=
  {| groups := groups s; currentGroup := currentGroup s;
     groupBalances := groupBalances s; isLoading := v;
     isCreating := isCreating s; isUpdating := isUpdating s;
     error := error s; lastFetchTime := lastFetchTime s |}.

Definition set_isCreating (v : bool) (s : state) : state :=
  {| groups := groups s; currentGroup := currentGroup s;
     groupBalances := groupBalances s; isLoading := isLoading s;
     isCreating := v; isUpdating := isUpdating s;
     error := error s; lastFetchTime := lastFetchTime s |}.

Definition set_isUpdating (v : bool) (s : state) : state :=
  {| groups := groups s; currentGroup := currentGroup s;
     groupBalances := groupBalances s; isLoading := isLoading s;
     isCreating := isCreating s; isUpdating := v;
     error := error s; lastFetchTime := lastFetchTime s |}.

Definition set_error (v : option string) (s : state) : state :=
  {| groups := groups s; currentGroup := currentGroup s;
     groupBalances := groupBalances s; isLoading := isLoading s;
     isCreating := isCreating s; isUpdating := isUpdating s;
     error := v; lastFetchTime := lastFetchTime s |}.

Definition set_lastFetchTime (v : option N) (s : state) : state :=
  {| groups := groups s; currentGroup := currentGroup s;
     groupBalances := groupBalances s; isLoading := isLoading s;
     isCreating := isCreating s; isUpdating := isUpdating s;
     error := error s; lastFetchTime := v |}.

(** The actions the slice has a case for; [other] is every other action. *)
Inductive action : Type :=
  | clearCurrentGroup
  | clearError
  | updateGroupInList (updatedGroup : group)
  | setCurrentGroup (payload : option group)
  | fetchUserGroups_pending
  | fetchUserGroups_fulfilled (fetched : list group)
  | fetchUserGroups_rejected (payload : option string)
  | fetchGroupDetails_pending
  | fetchGroupDetails_fulfilled (g : group)
  | fetchGroupDetails_rejected (payload : option string)
  | createGroup_pending
  | createGroup_fulfilled (g : group)
  | createGroup_rejected (payload : option string)
  | updateGroup_pending
  | updateGroup_fulfilled (g : group)
  | updateGroup_rejected (payload : option string)
  | addGroupMember_fulfilled (g : group)
  | removeMember_fulfilled (g : group)
  | updateMemberRole_fulfilled (g : group)
  | fetchGroupBalance_fulfilled (groupId : N) (balances : string)
  | other.

(** [if (state.currentGroup && state.currentGroup.id === g.id)
      state.currentGroup = g] *)
Definition replace_current (g : group) (s : state) : state :=
  match currentGroup s with
  | Some current =>
      if N.eqb (id current) (id g) then set_currentGroup (Some g) s else s
  | None => s
  end.

(** The reducer; [now] is what [Date.now()] returns when it runs. *)
Definition reducer (now : N) (s : state) (a : action) : state :=
  match a with
  | clearCurrentGroup => set_currentGroup None s
  | clearError => set_error None s
  | updateGroupInList updatedGroup =>
      set_groups (replace_found id updatedGroup (groups s)) s
  | setCurrentGroup payload => set_currentGroup payload s
  | fetchUserGroups_pending => set_error None (set_isLoading true s)
  | fetchUserGroups_fulfilled fetched =>
      set_error None
        (set_lastFetchTime (Some now)
           (set_groups fetched (set_isLoading false s)))
  | fetchUserGroups_rejected payload =>
      set_error payload (set_isLoading false s)
  | fetchGroupDetails_pending => set_error None (set_isLoading true s)
  | fetchGroupDetails_fulfilled g =>
      set_error None (set_currentGroup (Some g) (set_isLoading false s))
  | fetchGroupDetails_rejected payload =>
      set_error payload (set_isLoading false s)
  | createGroup_pending => set_error None (set_isCreating true s)
  | createGroup_fulfilled g =>
      set_error None (set_groups (groups s ++ [g]) (set_isCreating false s))
  | createGroup_rejected payload =>
      set_error payload (set_isCreating false s)
  | updateGroup_pending => set_error None (set_isUpdating true s)
  | updateGroup_fulfilled g =>
      let s := replace_current g (set_isUpdating false s) in
      set_error None (set_groups (replace_found id g (groups s)) s)
  | updateGroup_rejected payload =>
      set_error payload (set_isUpdating false s)
  | addGroupMember_fulfilled g => replace_current g s
  | removeMember_fulfilled g => replace_current g s
  | updateMemberRole_fulfilled g => replace_current g s
  | fetchGroupBalance_fulfilled groupId balances =>
      set_groupBalances (<[groupId := balances]> (groupBalances s)) s
  | other => s
  end.

(** The list and the detail view agree: the entry the list holds under
    the id of the current group is the current group. *)
Definition coherent (s : state) : Prop :=
  ∀ c i, currentGroup s = Some c →
         findIndex id (id c) (groups s) = Some i →
         groups s !! i = Some c.

(** *** A sample state *)

Definition flat : group := {| id := 7; name := "flat"; members := [1; 2; 3]%N |}.
Definition trip : group := {| id := 8; name := "trip"; members := [1; 2]%N |}.

Definition flat_renamed : group :=
  {| id := 7; name := "flat 2b"; members := [1; 2; 3]%N |}.

(** Two groups fetched at time 100, the first one open. *)
Definition opened : state :=
  reducer 101
    (reducer 100 initialState (fetchUserGroups_fulfilled [flat; trip]))
    (setCurrentGroup (Some flat)).

End GroupSlice.

(** * The HTTP client and its interceptors (services/api.js) *)

Module Api.

(** A request configuration: the headers and the [_retry] mark the
    response interceptor sets; [url] stands for the rest. *)
Record config : Type := {
  url : string;
  Authorization : option string;
  _retry : bool
}.

(** What the interceptors read and write outside the request: the two
    items of localStorage, the auth slice of the store
    (redux/slices/authSlice.js) and [window.location.href]. *)
Record world : Type := {
  accessToken : option string;
  refreshToken : option string;
  user : option string;
  isAuthenticated : bool;
  tokenRefreshing : bool;
  authError : option string;
  location : string
}.

(** [if (item)] for an item of localStorage: [null] and the empty string
    are falsy. *)
Definition present (item : option string) : bool :=
  match item with
  | Some s => negb (String.eqb s "")
  | None => false
  end.

(** The request interceptor: the stored access token, when there is one,
    goes into the Authorization header. *)
Definition onRequest (w : world) (c : config) : config :=
  if present (accessToken w) then
    {| url := url c;
       Authorization := Some ("Bearer " ++ default "" (accessToken w))%string;
       _retry := _retry c |}
  else c.

(** The reducer clearAuth of the auth slice. *)
Definition clearAuth (w : world) : world :=
  {| accessToken := None; refreshToken := None; user := None;
     isAuthenticated := false; tokenRefreshing := tokenRefreshing w;
     authError := None; location := location w |}.

Definition redirect (href : string) (w : world) : world :=
  {| accessToken := accessToken w; refreshToken := refreshToken w;
     user := user w; isAuthenticated := isAuthenticated w;
     tokenRefreshing := tokenRefreshing w; authError := authError w;
     location := href |}.

(** How dispatching the thunk refreshToken ends: the service answered
    with a new access token (and possibly the user), it refused, or the
    dispatch itself threw. *)
Inductive refresh_outcome : Type :=
  | refresh_fulfilled (access_token : string) (payload_user : option string)
  | refresh_rejected
  | refresh_threw.

(** The thunk stores the new access token and the slice handles
    auth/refresh/pending and then fulfilled or rejected. *)
Definition after_refresh (o : refresh_outcome) (w : world) : world :=
  match o with
  | refresh_fulfilled access_token payload_user =>
      {| accessToken := Some access_token; refreshToken := refreshToken w;
         user := payload_user; isAuthenticated := true;
         tokenRefreshing := false; authError := authError w;
         location := location w |}
  | refresh_rejected =>
      {| accessToken := None; refreshToken := None; user := None;
         isAuthenticated := false; tokenRefreshing := false;
         authError := authError w; location := location w |}
  | refresh_threw => w
  end.

(** The answer of the server to one request. *)
Inductive reply : Type :=
  | answered (data : string)
  | failed (status : option N).

(** How a call of [api(config)] ends. *)
Inductive settled : Type :=
  | resolved (data : string)
  | rejected (status : option N)
  | pending.

(** [api(config)]: the request interceptor, the server, and on an error
    the response interceptor, which may call [api] again.  axios hands the
    interceptor the configuration of the failed request as [error.config],
    and a configuration passed to [api] keeps the mark set on it.  The
    refresh goes through the separate client of authService, which has no
    interceptors.  [server] is the answer to the [n]-th request sent,
    [refresh] the outcome of the token refresh for the stored refresh
    token; [fuel] bounds the nesting of [api] calls, and [pending] is a
    call that needs more.  The result comes with the world left behind and
    the number of requests sent. *)
Fixpoint api (server : nat → config → reply)
    (refresh : option string → refresh_outcome)
    (fuel : nat) (sent : nat) (c : config) (w : world)
  : settled * world * nat :=
  let c := onRequest w c in
  match server sent c with
  | answered data => (resolved data, w, S sent)
  | failed status =>
      if (match status with Some 401%N => true | _ => false end)
         && negb (_retry c)
      then
        let originalRequest :=
          {| url := url c; Authorization := Authorization c;
             _retry := true |} in
        if present (refreshToken w) then
          match refresh (refreshToken w) with
          | refresh_fulfilled access_token payload_user =>
              let w :=
                after_refresh (refresh_fulfilled access_token payload_user) w in
              let originalRequest :=
                {| url := url c;
                   Authorization :=
                     Some ("Bearer " ++ access_token)%string;
                   _retry := true |} in
              match fuel with
              | O => (pending, w, S sent)
              | S fuel => api server refresh fuel (S sent) originalRequest w
              end
          | o =>
              (rejected status,
               redirect "/login" (clearAuth (after_refresh o w)), S sent)
          end
        else
          (rejected status, redirect "/login" (clearAuth w), S sent)
      else (rejected status, w, S sent)
  end.

(** *** A sample session *)

(** Logged in, with both tokens stored. *)
Definition session : world :=
  {| accessToken := Some "stale"%string; refreshToken := Some "r1"%string;
     user := Some "ana"%string; isAuthenticated := true;
     tokenRefreshing := false; authError := None;
     location := "/groups"%string |}.

Definition balance_request : config :=
  {| url := "/groups/7/balance"; Authorization := None; _retry := false |}.

(** A server that answers 401 to the stale token and serves the fresh
    one, and one that answers 401 to everything. *)
Definition strict_server (n : nat) (c : config) : reply :=
  if decide (Authorization c = Some "Bearer fresh"%string)
  then answered "balances"
  else failed (Some 401%N).

Definition closed_server (n : nat) (c : config) : reply :=
  failed (Some 401%N).

Definition refresh_ok (token : option string) : refresh_outcome :=
  refresh_fulfilled "fresh" (Some "ana"%string).

Definition refresh_refused (token : option string) : refresh_outcome :=
  refresh_rejected.

End Api.

(** * Properties of the split calculator *)

Section reduce_facts.
Context {X Y : Type}.

(** A callback that never throws makes [reduce] a left fold. *)
Lemma reduce_pure (g : Y → X → Y) (l : list X) (acc : Y) :
  reduce (fun b a => Return (g b a)) l acc = Return (foldl g acc l).
Proof.
  revert acc. induction l as [|x l IH]; intros acc; [done|].
  cbn. apply IH.
Qed.

End reduce_facts.

(** Assigning [acc[p.id] = g(p.id)] for every participant in turn: an id of
    the list ends up with its value, every other key keeps what it had. *)
Lemma lookup_assign_all (g : N → number) (ps : list participant)
    (m : gmap N number) (k : N) :
  foldl (fun acc p => <[id p := g (id p)]> acc) m ps !! k
  = if decide (k ∈ id <$> ps) then Some (g k) else m !! k.
Proof.
  revert m. induction ps as [|p ps IH]; intros m; cbn [foldl].
  - rewrite decide_False; [done | apply not_elem_of_nil].
  - rewrite IH, fmap_cons. destruct (decide (k ∈ id <$> ps)) as [Hin|Hnin].
    + rewrite decide_True; [done | rewrite elem_of_cons; tauto].
    + destruct (decide (k = id p)) as [->|Hne].
      * rewrite decide_True by (rewrite elem_of_cons; tauto).
        by rewrite lookup_insert_eq.
      * rewrite decide_False by (rewrite elem_of_cons; tauto).
        by rewrite lookup_insert_ne.
Qed.

Lemma dom_assign_all (g : N → number) (ps : list participant)
    (m : gmap N number) :
  dom (foldl (fun acc p => <[id p := g (id p)]> acc) m ps)
  = list_to_set (id <$> ps) ∪ dom m.
Proof.
  apply set_eq. intros k.
  rewrite elem_of_dom, lookup_assign_all, elem_of_union, elem_of_list_to_set.
  rewrite elem_of_dom. case_decide; [|tauto].
  split; [tauto | intros _; by eexists].
Qed.

(** The outcome of each branch of the [switch]. *)
Lemma calculateSplit_equal amount ps data :
  calculateSplit amount ps (Some "equal"%string) data
  = Return (foldl (fun acc p =>
                     <[id p := div (parseFloat amount)
                                   (of_Z (Z.of_nat (length ps)))]> acc) ∅ ps).
Proof. unfold calculateSplit. cbn. apply reduce_pure. Qed.

Lemma calculateSplit_exact amount ps data :
  calculateSplit amount ps (Some "exact"%string) data
  = Return (default ∅ (amounts (default no_data data))).
Proof. done. Qed.

Lemma calculateSplit_percentage amount ps a pcts :
  calculateSplit amount ps (Some "percentage"%string)
    (Some {| amounts := a; percentages := Some pcts |})
  = Return (foldl (fun acc p =>
                     <[id p := div (mul (parseFloat amount)
                                        (or_zero (pcts !! id p)))
                                   (of_Z 100)]> acc) ∅ ps).
Proof. unfold calculateSplit. cbn. apply reduce_pure. Qed.

Lemma calculateSplit_no_percentages amount p ps a :
  calculateSplit amount (p :: ps) (Some "percentage"%string)
    (Some {| amounts := a; percentages := None |})
  = Throw TypeError.
Proof. done. Qed.

(** Multiplying a finite total by the percentage 0 and dividing by 100
    gives a zero of the total's sign; a total that is not finite gives NaN. *)
Lemma zero_percent_share (total : number) :
  div (mul total (of_Z 0)) (of_Z 100)
  = match total with
    | S754_zero s | S754_finite s _ _ => S754_zero s
    | _ => S754_nan
    end.
Proof. by destruct total as [[]|[]| |[] ? ?]. Qed.

(** *** Examples on the scenario of the specification *)

Example of_cents_10000 : of_cents 10000 = of_Z 100.
Proof. by vm_compute. Qed.

(** What the specification computes on its own scenarios. *)
Example spec_equal_cents_100_by_3 :
  spec_equal_cents 10000 3 = [3334; 3333; 3333].
Proof. reflexivity. Qed.

Example spec_percentage_cents_1001_halves :
  spec_percentage_cents 1001 [5000; 5000] = [501; 500].
Proof. reflexivity. Qed.

(** An omitted method is the method 'equal'. *)
Lemma calculateSplit_default_method amount ps data :
  calculateSplit amount ps None data
  = calculateSplit amount ps (Some "equal"%string) data.
Proof. done. Qed.

(** $100 split three ways: every share is the double nearest to 100/3,
    33.333333333333336. *)
Example equal_split_100_by_3 :
  calculateSplit (of_Z 100) [pA; pB; pC] None None
  = Return {[ A := S754_finite false 4691249611844267 (-47);
              B := S754_finite false 4691249611844267 (-47);
              C := S754_finite false 4691249611844267 (-47) ]}.
Proof. by vm_compute. Qed.

(** $0.10 split six ways: the six shares add up to 0.09999999999999999. *)
Example equal_split_drift :
  (shares ← calculateSplit (of_cents 10) six (Some "equal"%string) None;
   Return (sum_entries six shares, of_cents 10))
  = Return (S754_finite false 7205759403792793 (-56),
            S754_finite false 7205759403792794 (-56)).
Proof. by vm_compute. Qed.

(** $0.10 split 10% / 90%: the shares 0.01 and 0.09 add up to
    0.09999999999999999. *)
Example percentage_split_drift :
  (shares ← calculateSplit (of_cents 10) [pA; pB] (Some "percentage"%string)
     (Some {| amounts := None;
              percentages := Some {[ A := of_Z 10; B := of_Z 90 ]} |});
   Return (sum_entries [pA; pB] shares, of_cents 10))
  = Return (S754_finite false 7205759403792793 (-56),
            S754_finite false 7205759403792794 (-56)).
Proof. by vm_compute. Qed.

(** Adding up the entries of a mapping that holds [g(p.id)] for every
    participant adds up these values, in input order. *)
Lemma sum_entries_assigned (g : N → number) (ps : list participant)
    (shares : gmap N number) :
  (∀ p, p ∈ ps → shares !! id p = Some (g (id p))) →
  sum_entries ps shares = foldl (fun s p => add s (g (id p))) (of_Z 0) ps.
Proof.
  unfold sum_entries. generalize (of_Z 0).
  induction ps as [|p ps IH]; intros acc Hshares; [done|].
  cbn [foldl]. unfold entry_of at 2.
  rewrite (Hshares p) by (apply elem_of_cons; by left).
  apply IH. intros q Hq. apply Hshares. apply elem_of_cons. by right.
Qed.

(** *** The [equal] method *)

(** C2, as the code has it: with method 'equal' every participant gets the
    same share, the one double division totalAmount / count, whatever the
    amount and the list are; nobody else gets a share.  The quotient is not
    rounded to the minor unit and no residual is moved to the first
    participant: added up over the participants in input order, starting
    from 0, the shares give the floating-point sum of count copies of that
    quotient, which nothing adjusts to totalAmount. *)
Theorem equal_split_unrounded (amount : number) (ps : list participant)
    (data : option split_data) :
  ∃ shares,
    calculateSplit amount ps (Some "equal"%string) data = Return shares
    ∧ (∀ k, shares !! k
            = if decide (k ∈ id <$> ps)
              then Some (div (parseFloat amount) (of_Z (Z.of_nat (length ps))))
              else None)
    ∧ sum_entries ps shares
      = foldl (fun s _ =>
                 add s (div (parseFloat amount) (of_Z (Z.of_nat (length ps)))))
              (of_Z 0) ps.
Proof.
  eexists. split; [apply calculateSplit_equal|].
  set (share := div (parseFloat amount) (of_Z (Z.of_nat (length ps)))).
  assert (Hshares : ∀ k,
            foldl (fun acc p => <[id p := share]> acc) (∅ : gmap N number) ps !! k
            = if decide (k ∈ id <$> ps) then Some share else None).
  { intros k. by rewrite (lookup_assign_all (fun _ => share)). }
  split; [exact Hshares|].
  apply (sum_entries_assigned (fun _ => share)).
  intros p Hp. rewrite Hshares.
  rewrite decide_True; [done | by apply list_elem_of_fmap_2].
Qed.

(** C2 fails on the specification's own scenario: for $100 among A, B and C
    the first share is 33.333333333333336, not 33.34.  The sum fails too:
    for $0.10 among six the shares add up to 0.09999999999999999. *)
Lemma equal_split_counterexample :
  ¬ equal_split_claim 10000 [pA; pB; pC] ∧ ¬ equal_sum_claim 10 six.
Proof.
  split.
  - intros (shares & Hcall & _ & Hshares).
    rewrite calculateSplit_equal in Hcall. injection Hcall as <-.
    apply Forall2_cons_1 in Hshares as [Hfirst _].
    vm_compute in Hfirst. discriminate.
  - intros (shares & Hcall & Hsum).
    rewrite calculateSplit_equal in Hcall. injection Hcall as <-.
    vm_compute in Hsum. discriminate.
Qed.

(** *** The [percentage] method *)

(** C3, as the code has it: with method 'percentage' and a percentages
    object, whatever the percentages add up to, every participant gets
    totalAmount × percentage / 100 in double arithmetic (percentage 0 when
    the entry is missing or falsy), nobody else gets a share; nothing is
    rounded to the minor unit and no residual is moved to the first
    participant: added up over the participants in input order, starting
    from 0, the shares give the floating-point sum of these quotients,
    which nothing adjusts to totalAmount. *)
Theorem percentage_split_unrounded (amount : number) (ps : list participant)
    (a : option (gmap N number)) (pcts : gmap N number) :
  ∃ shares,
    calculateSplit amount ps (Some "percentage"%string)
      (Some {| amounts := a; percentages := Some pcts |}) = Return shares
    ∧ (∀ k, shares !! k
            = if decide (k ∈ id <$> ps)
              then Some (div (mul (parseFloat amount) (or_zero (pcts !! k)))
                             (of_Z 100))
              else None)
    ∧ sum_entries ps shares
      = foldl (fun s p =>
                 add s (div (mul (parseFloat amount) (or_zero (pcts !! id p)))
                            (of_Z 100)))
              (of_Z 0) ps.
Proof.
  eexists. split; [apply calculateSplit_percentage|].
  set (share := fun k => div (mul (parseFloat amount) (or_zero (pcts !! k)))
                             (of_Z 100)).
  assert (Hshares : ∀ k,
            foldl (fun acc p => <[id p := share (id p)]> acc)
              (∅ : gmap N number) ps !! k
            = if decide (k ∈ id <$> ps) then Some (share k) else None).
  { intros k. by rewrite (lookup_assign_all share). }
  split; [exact Hshares|].
  apply (sum_entries_assigned share).
  intros p Hp. rewrite Hshares.
  rewrite decide_True; [done | by apply list_elem_of_fmap_2].
Qed.

(** C3 fails for $10.01 split 50% / 50%: both shares are 5.005, where the
    specification asks for 5.01 and 5.00.  The sum fails too: for $0.10
    split 10% / 90% the shares 0.01 and 0.09 add up to
    0.09999999999999999. *)
Lemma percentage_split_counterexample :
  ¬ percentage_split_claim 1001 [pA; pB] [5000; 5000]
  ∧ ¬ percentage_sum_exact_claim 10 [pA; pB] [1000; 9000].
Proof.
  split.
  - intros (shares & Hcall & _ & Hshares).
    unfold percentage_data in Hcall.
    rewrite calculateSplit_percentage in Hcall. injection Hcall as <-.
    apply Forall2_cons_1 in Hshares as [Hfirst _].
    vm_compute in Hfirst. discriminate.
  - intros (shares & Hcall & Hsum).
    unfold percentage_data in Hcall.
    rewrite calculateSplit_percentage in Hcall. injection Hcall as <-.
    vm_compute in Hsum. discriminate.
Qed.

(** *** The [exact] method *)

(** C4, as the code has it: with method 'exact' and [data] omitted or an
    object, the amounts are compared with nothing and no ValidationError
    is raised, whether or not they add up to totalAmount; the call returns
    data.amounts as supplied, or the empty mapping when data is omitted or
    has no amounts. *)
Theorem exact_split_returns_amounts (amount : number) (ps : list participant)
    (data : option split_data) :
  calculateSplit amount ps (Some "exact"%string) data
  = Return (default ∅ (amounts (default no_data data))).
Proof. unfold calculateSplit. by destruct data as [[supplied pcts]|]. Qed.

(** C4 fails for a $100 expense with the amounts 10 and 20: they miss the
    total by 70 and are returned all the same. *)
Lemma exact_split_counterexample :
  ¬ exact_split_claim (of_Z 100) [pA; pB] {[ A := of_Z 10; B := of_Z 20 ]}.
Proof.
  intros Hclaim. unfold exact_split_claim in Hclaim.
  rewrite calculateSplit_exact in Hclaim.
  by specialize (Hclaim eq_refl).
Qed.

(** *** No validation of the percentages *)

(** C5, as the code has it: with method 'percentage' the percentages are
    never added up or checked.  Given a percentages object, whatever its
    entries, the call returns a mapping with a share for exactly the
    participants; without one it returns the empty mapping for an empty
    list and raises TypeError, not ValidationError, otherwise. *)
Theorem percentage_split_unvalidated (amount : number) (ps : list participant)
    (data : option split_data) :
  match percentages (default no_data data) with
  | Some pcts =>
      ∃ shares,
        calculateSplit amount ps (Some "percentage"%string) data = Return shares
        ∧ dom shares = list_to_set (id <$> ps)
  | None =>
      calculateSplit amount ps (Some "percentage"%string) data
      = match ps with
        | [] => Return ∅
        | _ :: _ => Throw TypeError
        end
  end.
Proof.
  destruct data as [[a [pcts|]]|]; cbn [default from_option percentages no_data].
  - eexists. split; [apply calculateSplit_percentage|].
    rewrite (dom_assign_all
               (fun k => div (mul (parseFloat amount) (or_zero (pcts !! k)))
                             (of_Z 100))).
    by rewrite dom_empty_L, (right_id_L ∅ (∪)).
  - by destruct ps.
  - by destruct ps.
Qed.

(** C5 fails for a $100 expense split 30% / 30%: the percentages add up to
    60 and the call returns the shares 30 and 30. *)
Lemma percentage_sum_counterexample :
  ¬ percentage_sum_claim (of_Z 100) [pA; pB]
      {[ A := of_Z 30; B := of_Z 30 ]}.
Proof.
  intros Hclaim. unfold percentage_sum_claim in Hclaim.
  rewrite calculateSplit_percentage in Hclaim.
  by specialize (Hclaim eq_refl).
Qed.

Example percentage_split_30_30 :
  calculateSplit (of_Z 100) [pA; pB] (Some "percentage"%string)
    (Some {| amounts := None;
             percentages := Some {[ A := of_Z 30; B := of_Z 30 ]} |})
  = Return {[ A := of_Z 30; B := of_Z 30 ]}.
Proof. by vm_compute. Qed.

(** *** No validation of the input *)

(** C6, as the code has it: for every amount (positive, zero or negative),
    participant list and method, with [data] omitted or an object,
    [calculateSplit] validates nothing and raises no ValidationError.  It
    returns a mapping, except for method 'percentage' without a
    percentages object on a non-empty list, where indexing [undefined]
    raises TypeError.  With an empty list it returns the empty mapping
    (data.amounts, if present, for 'exact'), with an unrecognized method
    as well; a total that is zero or negative is divided like any other. *)
Theorem split_never_validates (amount : number) (ps : list participant)
    (method : option string) (data : option split_data) :
  ((∃ shares, calculateSplit amount ps method data = Return shares)
   ∨ (calculateSplit amount ps method data = Throw TypeError
      ∧ default "equal"%string method = "percentage"%string
      ∧ percentages (default no_data data) = None
      ∧ ps ≠ []))
  ∧ calculateSplit amount [] method data
    = Return (if String.eqb (default "equal"%string method) "exact"
              then default ∅ (amounts (default no_data data))
              else ∅)
  ∧ (recognized (default "equal"%string method) = false →
     calculateSplit amount ps method data = Return ∅)
  ∧ (default "equal"%string method = "percentage"%string →
     percentages (default no_data data) = None → ps ≠ [] →
     calculateSplit amount ps method data = Throw TypeError)
  ∧ calculateSplit amount ps method data ≠ Throw ValidationError.
Proof.
  assert (Houtcome :
    (∃ shares, calculateSplit amount ps method data = Return shares)
    ∨ (calculateSplit amount ps method data = Throw TypeError
       ∧ default "equal"%string method = "percentage"%string
       ∧ percentages (default no_data data) = None
       ∧ ps ≠ [])).
  { unfold calculateSplit.
    destruct (String.eqb (default "equal"%string method) "equal");
      [left; rewrite reduce_pure; by eexists|].
    destruct (String.eqb (default "equal"%string method) "exact");
      [left; by eexists|].
    destruct (String.eqb_spec (default "equal"%string method) "percentage")
      as [Hm|_]; [|left; by eexists].
    destruct (percentages (default no_data data)) as [pcts|] eqn:Hp.
    - left. unfold get_percentage. rewrite Hp. cbn.
      rewrite reduce_pure. by eexists.
    - destruct ps as [|p ps]; [left; by eexists|].
      right. cbn [reduce]. unfold get_percentage. rewrite Hp. done. }
  split; [exact Houtcome|]. split; [|split; [|split]].
  - unfold calculateSplit. cbn [reduce length].
    destruct (String.eqb_spec (default "equal"%string method) "equal")
      as [->|_]; [done|].
    by repeat destruct (String.eqb _ _).
  - unfold recognized, calculateSplit.
    destruct (String.eqb (default "equal"%string method) "equal"); [done|].
    destruct (String.eqb (default "equal"%string method) "exact"); [done|].
    by destruct (String.eqb (default "equal"%string method) "percentage").
  - intros Hm Hp Hps. unfold calculateSplit. rewrite Hm.
    destruct ps as [|p ps]; [done|].
    cbn. unfold get_percentage. by rewrite Hp.
  - destruct Houtcome as [[shares ->]|[-> _]]; discriminate.
Qed.

(** C6 fails on each kind of input it names: an empty list, a negative
    total and an unrecognized method all yield a mapping. *)
Lemma validation_counterexample :
  ¬ validation_claim (of_Z 100) [] "equal" None
  ∧ ¬ validation_claim (of_Z (-30)) [pA; pB] "equal" None
  ∧ ¬ validation_claim (of_Z 100) [pA; pB] "weighted" None.
Proof.
  unfold validation_claim. repeat split; intros Hclaim.
  - by specialize (Hclaim (or_introl eq_refl)).
  - rewrite calculateSplit_equal in Hclaim.
    by specialize (Hclaim (or_intror (or_introl eq_refl))).
  - by specialize (Hclaim (or_intror (or_intror eq_refl))).
Qed.

Example equal_split_negative_total :
  calculateSplit (of_Z (-30)) [pA; pB] (Some "equal"%string) None
  = Return {[ A := of_Z (-15); B := of_Z (-15) ]}.
Proof. by vm_compute. Qed.

(** *** Unrecognized methods *)

(** C9: a method other than 'equal', 'exact' and 'percentage' falls to the
    [default] label: the call returns the empty mapping, whatever the
    amount, the participants and the data, and raises nothing.  (An omitted
    method is not such a method: it is replaced by 'equal' before the
    switch.) *)
Theorem unknown_method_empty_mapping (amount : number)
    (ps : list participant) (method : string) (data : option split_data) :
  method ≠ "equal"%string → method ≠ "exact"%string →
  method ≠ "percentage"%string →
  calculateSplit amount ps (Some method) data = Return ∅.
Proof.
  intros Hequal Hexact Hpercentage. unfold calculateSplit, default.
  cbn [from_option Datatypes.id].
  apply String.eqb_neq in Hequal, Hexact, Hpercentage.
  by rewrite Hequal, Hexact, Hpercentage.
Qed.

Lemma unknown_method_empty_mapping_witness :
  ("weighted" ≠ "equal" ∧ "weighted" ≠ "exact" ∧ "weighted" ≠ "percentage")%string
  ∧ calculateSplit (of_Z 100) [pA; pB] (Some "weighted"%string)
      (Some {| amounts := Some {[ A := of_Z 60; B := of_Z 40 ]};
               percentages := None |})
    = Return ∅.
Proof.
  split; [repeat split; discriminate|].
  apply (unknown_method_empty_mapping (of_Z 100) [pA; pB] "weighted");
    discriminate.
Defined.

(** *** Participants without a percentage *)

(** C10, as the code has it: for method 'percentage' with a percentages
    object, a participant whose id has no entry is given the percentage 0
    and the share totalAmount × 0 / 100.  That share is a zero (with the
    sign of the total) when the total is finite; it is NaN when the total
    is NaN or infinite. *)
Theorem missing_percentage_share (amount : number) (ps : list participant)
    (a : option (gmap N number)) (pcts : gmap N number) (p : participant) :
  p ∈ ps → pcts !! id p = None →
  ∃ shares,
    calculateSplit amount ps (Some "percentage"%string)
      (Some {| amounts := a; percentages := Some pcts |}) = Return shares
    ∧ or_zero (pcts !! id p) = of_Z 0
    ∧ shares !! id p
      = Some (match parseFloat amount with
              | S754_zero s | S754_finite s _ _ => S754_zero s
              | _ => S754_nan
              end).
Proof.
  intros Hin Hnone.
  eexists. split; [apply calculateSplit_percentage|].
  split; [by rewrite Hnone|].
  rewrite (lookup_assign_all
             (fun k => div (mul (parseFloat amount) (or_zero (pcts !! k)))
                           (of_Z 100))).
  rewrite decide_True by by apply list_elem_of_fmap_2.
  by rewrite Hnone, <- zero_percent_share.
Qed.

Lemma missing_percentage_share_witness :
  (pB ∈ [pA; pB] ∧ ({[ A := of_Z 100 ]} : gmap N number) !! id pB = None)
  ∧ ∃ shares,
      calculateSplit (of_Z 100) [pA; pB] (Some "percentage"%string)
        (Some {| amounts := None;
                 percentages := Some {[ A := of_Z 100 ]} |}) = Return shares
      ∧ or_zero (({[ A := of_Z 100 ]} : gmap N number) !! id pB) = of_Z 0
      ∧ shares !! id pB = Some (S754_zero false).
Proof.
  assert (Hin : pB ∈ [pA; pB]) by (apply elem_of_cons; right; apply elem_of_cons; by left).
  assert (Hnone : ({[ A := of_Z 100 ]} : gmap N number) !! id pB = None)
    by reflexivity.
  split; [done|].
  exact (missing_percentage_share (of_Z 100) [pA; pB] None
           {[ A := of_Z 100 ]} pB Hin Hnone).
Defined.

(** C10 fails when the amount does not parse to a finite number (an empty
    amount field parses to NaN): the share of the participant without a
    percentage is NaN, not 0. *)
Lemma missing_percentage_counterexample :
  ¬ missing_percentage_claim S754_nan [pA; pB] {[ A := of_Z 100 ]} pB.
Proof.
  intros Hclaim.
  destruct Hclaim as (shares & x & Hcall & Hget & Hzero).
  - apply elem_of_cons; right; apply elem_of_cons; by left.
  - reflexivity.
  - rewrite calculateSplit_percentage in Hcall. injection Hcall as <-.
    vm_compute in Hget. injection Hget as <-. discriminate.
Qed.

(** * Properties of the service model *)

(** ** The specified split keeps the total *)

Lemma with_residual_sum (total : Z) (rounded : list Z) :
  rounded ≠ [] → sum_Z (with_residual total rounded) = total.
Proof. destruct rounded as [|first rest]; [done|]. intros _. cbn. lia. Qed.

Lemma with_residual_length (total : Z) (rounded : list Z) :
  length (with_residual total rounded) = length rounded.
Proof. by destruct rounded. Qed.

(** The shares the specified calculator hands out for an equal or a
    percentage split add up to the total, cent for cent. *)
Lemma split_keeps_total (totalAmount : Z) (ids : list member_id)
    (md : method_data) (rows : list (member_id * Z)) :
  split totalAmount ids md = Return rows →
  (∀ supplied, md ≠ exact supplied) →
  rows.*1 = ids ∧ sum_Z rows.*2 = totalAmount.
Proof.
  unfold split. case_decide as Hvalid; [done|]. intros Hrows Hmd.
  assert (Hids : ids ≠ []) by tauto.
  destruct md as [|supplied|hundredths]; [|by destruct (Hmd supplied)|].
  - injection Hrows as <-.
    assert (Hlen : length (spec_equal_cents totalAmount (length ids))
                   = length ids)
      by (unfold spec_equal_cents;
          by rewrite with_residual_length, length_replicate).
    rewrite fst_zip, snd_zip by lia. split; [done|].
    apply with_residual_sum. by destruct ids.
  - case_decide as Hpct; [|done]. injection Hrows as <-.
    destruct Hpct as [Hlen _].
    assert (Hlen' : length (spec_percentage_cents totalAmount hundredths)
                    = length ids)
      by (unfold spec_percentage_cents;
          by rewrite with_residual_length, length_fmap).
    rewrite fst_zip, snd_zip by lia. split; [done|].
    apply with_residual_sum. destruct hundredths; [|done].
    by destruct ids.
Qed.

(** ** The sum of a mapping of balances *)

Lemma sum_balances_insert (k : N) (v : Z) (bal : gmap N Z) :
  bal !! k = None → sum_balances (<[k := v]> bal) = v + sum_balances bal.
Proof.
  intros Hfresh. unfold sum_balances.
  rewrite map_fold_insert_L; [done | intros; lia | done].
Qed.

Lemma sum_balances_delete (k : N) (v : Z) (bal : gmap N Z) :
  bal !! k = Some v → sum_balances bal = v + sum_balances (delete k bal).
Proof.
  intros Hk. unfold sum_balances.
  rewrite (map_fold_delete_L _ _ k v); [done | intros; lia | done].
Qed.

(** Crediting a member moves the sum by the amount credited. *)
Lemma sum_balances_credit (k : N) (v : Z) (bal : gmap N Z) :
  sum_balances (credit k v bal) = sum_balances bal + v.
Proof.
  unfold credit. destruct (bal !! k) as [x|] eqn:Hk; cbn [default from_option].
  - rewrite <- insert_delete_eq, sum_balances_insert by apply lookup_delete_eq.
    rewrite (sum_balances_delete k x bal Hk). unfold Datatypes.id. lia.
  - rewrite sum_balances_insert by done. lia.
Qed.

Lemma sum_balances_zeros (bal : gmap N Z) :
  (∀ k v, bal !! k = Some v → v = 0) → sum_balances bal = 0.
Proof.
  induction bal as [|k v bal Hfresh IH] using map_ind; intros Hzero; [done|].
  rewrite sum_balances_insert by done.
  rewrite (Hzero k v) by apply lookup_insert_eq.
  rewrite IH; [done|]. intros k' v' Hk'. apply (Hzero k').
  rewrite lookup_insert_ne; [done|]. intros ->. congruence.
Qed.

(** ** The Balance Engine keeps the sum *)

Lemma sum_balances_post_participation payer bal p :
  sum_balances (post_participation payer bal p) = sum_balances bal.
Proof.
  unfold post_participation. destruct (paid p); [done|].
  rewrite !sum_balances_credit. lia.
Qed.

Lemma sum_balances_post_expense gid bal e :
  sum_balances (post_expense gid bal e) = sum_balances bal.
Proof.
  unfold post_expense. destruct (N.eqb (group e) gid); [|done].
  generalize (participations e). intros ps. revert bal.
  induction ps as [|p ps IH]; intros bal; [done|].
  cbn [foldl]. by rewrite IH, sum_balances_post_participation.
Qed.

(** The scenario of section 8: after the $100 dinner paid by A the shares
    are 33.34, 33.33 and 33.33 and the balances +66.66, -33.33 and -33.33. *)
Example dinner_balances :
  (participations <$> expenses (dinner trio).2
   = [unpaid <$> [(A, 3334); (B, 3333); (C, 3333)]])
  ∧ computeGroupBalances (dinner trio).2 7
    = {[ A := 6666; B := -3333; C := -3333 ]}.
Proof. split; by vm_compute. Qed.

(** C1: whatever ledger the creations, edits, deletions and settlements of
    a request sequence leave behind, the net balances that
    [computeGroupBalances] returns for a group add up to 0: an unpaid share
    is debited to the participant and credited to the payer, and a paid one
    moves nothing. *)
Theorem zero_sum_invariant (l : ledger) (ops : list operation) (gid : N) :
  sum_balances (computeGroupBalances (run ops l) gid) = 0.
Proof.
  unfold computeGroupBalances. generalize (run ops l). clear l ops. intros l.
  assert (Hstart : sum_balances
            (gset_to_gmap 0 (default ∅ (members l !! gid)) : gmap N Z) = 0).
  { apply sum_balances_zeros. intros k v Hk.
    by apply lookup_gset_to_gmap_Some in Hk as [_ <-]. }
  revert Hstart.
  generalize (gset_to_gmap 0 (default ∅ (members l !! gid)) : gmap N Z).
  induction (expenses l) as [|e es IH]; intros bal Hbal; [done|].
  cbn [foldl]. apply IH. by rewrite sum_balances_post_expense.
Qed.

(** ** The Reminder Candidate Selector *)

#[local] Instance before_total : Total before.
Proof. intros c1 c2. unfold before. lia. Qed.

#[local] Instance before_transitive : Transitive before.
Proof. intros c1 c2 c3. unfold before. lia. Qed.

Lemma eligible_Some (minimumAmount : Z) (row : member_id * Z) (c : candidate) :
  eligible minimumAmount row = Some c
  ↔ memberId c = row.1 ∧ amountOwed c = Z.abs row.2
    ∧ row.2 < 0 ∧ minimumAmount ≤ Z.abs row.2.
Proof.
  unfold eligible. destruct c as [m owed]. case_decide as Hrow; cbn.
  - split; [intros [= <- <-]; tauto | intros (-> & -> & _); done].
  - split; [done | tauto].
Qed.

Lemma elem_of_select (bal : gmap N Z) (minimumAmount : Z) (c : candidate) :
  c ∈ select bal minimumAmount
  ↔ ∃ b, bal !! memberId c = Some b ∧ b < 0 ∧ minimumAmount ≤ Z.abs b
         ∧ amountOwed c = Z.abs b.
Proof.
  unfold select. rewrite merge_sort_Permutation, list_elem_of_omap. split.
  - intros ([k b] & Hrow & Helig).
    apply elem_of_map_to_list in Hrow.
    apply eligible_Some in Helig as (Hk & Howed & Hneg & Hmin). cbn in *.
    exists b. by rewrite Hk.
  - intros (b & Hb & Hneg & Hmin & Howed).
    exists (memberId c, b). split; [by apply elem_of_map_to_list|].
    by apply eligible_Some.
Qed.

Lemma NoDup_eligible (minimumAmount : Z) (rows : list (member_id * Z)) :
  NoDup rows.*1 → NoDup (memberId <$> omap (eligible minimumAmount) rows).
Proof.
  induction rows as [|row rows IH]; cbn; [constructor|].
  rewrite NoDup_cons. intros [Hfresh Hrows].
  destruct (eligible minimumAmount row) as [c|] eqn:Hrow; [|by apply IH].
  cbn. apply NoDup_cons. split; [|by apply IH].
  apply eligible_Some in Hrow as (Hk & _).
  intros Hin. apply Hfresh.
  apply list_elem_of_fmap in Hin as (c' & Hc' & Hin).
  apply list_elem_of_omap in Hin as (row' & Hrow' & Helig).
  apply eligible_Some in Helig as (Hk' & _).
  apply list_elem_of_fmap. exists row'. split; [congruence | done].
Qed.

Lemma NoDup_select (bal : gmap N Z) (minimumAmount : Z) :
  NoDup (memberId <$> select bal minimumAmount).
Proof.
  unfold select. rewrite merge_sort_Permutation.
  apply NoDup_eligible, NoDup_fst_map_to_list.
Qed.

(** The sample balances do not add up to 0: they are balances handed to
    the selection, no group of the Balance Engine has them. *)
Example sample_balances_sum : sum_balances sample_balances = 1500.
Proof. by vm_compute. Qed.

(** C7: [candidates(groupId, minimumAmount)] lists exactly the members whose
    net balance from the Balance Engine is negative with an absolute value
    of at least minimumAmount, each once with that absolute value as the
    amount owed, the larger amount first and, among equal amounts, the
    smaller member id first.  On the balances A: +50, B: -30, C: -5 with
    minimumAmount 10 the selection is B with 30 alone. *)
Theorem candidates_selected_in_order (l : ledger) (gid : N)
    (minimumAmount : Z) :
  (∀ c, c ∈ candidates l gid minimumAmount
        ↔ ∃ b, computeGroupBalances l gid !! memberId c = Some b
               ∧ b < 0 ∧ minimumAmount ≤ Z.abs b ∧ amountOwed c = Z.abs b)
  ∧ NoDup (memberId <$> candidates l gid minimumAmount)
  ∧ StronglySorted before (candidates l gid minimumAmount)
  ∧ select sample_balances 1000 = [{| memberId := B; amountOwed := 3000 |}].
Proof.
  unfold candidates. split; [intros c; apply elem_of_select|].
  split; [apply NoDup_select|].
  split; [apply StronglySorted_merge_sort; apply _ | by vm_compute].
Qed.

(** ** The Settlement Ledger *)

Example markSettled_first_time :
  (markSettled (1%N, B) upi 5 (dinner trio).2).1
  = Return {| member := B; share := 3333; paid := true;
              settlement_method := Some upi; settled_at := Some 5%N |}
  ∧ computeGroupBalances dinner_settled_by_B 7
    = {[ A := 3333; B := 0; C := -3333 ]}.
Proof. split; by vm_compute. Qed.

Lemma find_fmap_preserved {X : Type} (test : X → bool) (f : X → X)
    (xs : list X) :
  (∀ x, test (f x) = test x) →
  List.find test (f <$> xs) = f <$> List.find test xs.
Proof.
  intros Hkeep. induction xs as [|x xs IH]; [done|].
  cbn. rewrite Hkeep. by destruct (test x).
Qed.

(** Settlement is not idempotent: once [markSettled] has succeeded, the
    participation is found paid, and settling it again is refused. *)
Lemma markSettled_twice (l l' : ledger) (pid : participation_id)
    (method method' : payment_method) (now now' : N) (p : Participation) :
  markSettled pid method now l = (Return p, l') →
  markSettled pid method' now' l' = (Throw ConflictError, l').
Proof.
  unfold markSettled.
  destruct (find_participation l pid) as [p0|] eqn:Hfind;
    [|intros Habs; discriminate Habs].
  destruct (paid p0) eqn:Hunpaid; [intros Habs; discriminate Habs|].
  intros Hdone. injection Hdone as _ <-.
  assert (Hfind' : find_participation
            (with_expenses l (settle_in pid method now <$> expenses l)) pid
          = Some (settle method now p0)).
  { unfold find_participation, find_expense in *. cbn [expenses with_expenses].
    rewrite find_fmap_preserved
      by (intros e; unfold settle_in;
          by destruct (N.eqb (expense_id e) pid.1) eqn:Hq; cbn; rewrite ?Hq).
    destruct (List.find _ (expenses l)) as [e|] eqn:He; [|done].
    cbn in Hfind |- *. apply List.find_some in He as [_ He].
    unfold settle_in. rewrite He. cbn [participations].
    rewrite find_fmap_preserved
      by (intros q; by destruct (N.eqb (member q) pid.2) eqn:Hq; cbn; rewrite ?Hq).
    rewrite Hfind. cbn. apply List.find_some in Hfind as [_ Hp0].
    by rewrite Hp0. }
  by rewrite Hfind'.
Qed.

(** C8: [markSettled] on a participation that is already settled fails with
    ConflictError and hands back the ledger it was given; on a
    participation that does not exist it fails with NotFoundError, the
    ledger unchanged as well. *)
Theorem markSettled_rejects (l : ledger) (pid : participation_id)
    (method : payment_method) (now : N) :
  match find_participation l pid with
  | Some p =>
      paid p = true → markSettled pid method now l = (Throw ConflictError, l)
  | None => markSettled pid method now l = (Throw NotFoundError, l)
  end.
Proof.
  unfold markSettled. destruct (find_participation l pid) as [p|]; [|done].
  by intros ->.
Qed.

Lemma markSettled_rejects_witness :
  markSettled (1%N, B) cash 9 dinner_settled_by_B
  = (Throw ConflictError, dinner_settled_by_B)
  ∧ markSettled (1%N, 4%N) cash 9 dinner_settled_by_B
    = (Throw NotFoundError, dinner_settled_by_B)
  ∧ markSettled (2%N, B) cash 9 dinner_settled_by_B
    = (Throw NotFoundError, dinner_settled_by_B).
Proof.
  split; [|split].
  - exact (markSettled_rejects dinner_settled_by_B (1%N, B) cash 9 eq_refl).
  - exact (markSettled_rejects dinner_settled_by_B (1%N, 4%N) cash 9).
  - exact (markSettled_rejects dinner_settled_by_B (2%N, B) cash 9).
Defined.

(** * Properties of the other helpers *)

(** ** calculateSplit and a [data] argument of [null] *)

(** The default value of [data] replaces an omitted argument only.  With
    [data] omitted or an object, the call is the one studied above.  With
    [data = null], the method 'exact' raises TypeError, the method
    'percentage' raises TypeError on a non-empty list and returns the
    empty mapping on an empty one, and every other method, 'equal'
    included, returns what it returns without [data]. *)
Theorem calculateSplit_null_data (amount : number) (ps : list participant)
    (method : option string) :
  (∀ data, calculateSplit_call amount ps method (as_argument data)
           = calculateSplit amount ps method data)
  ∧ calculateSplit_call amount ps method data_null
    = if String.eqb (default "equal"%string method) "exact"
      then Throw TypeError
      else if String.eqb (default "equal"%string method) "percentage"
      then match ps with
           | [] => Return ∅
           | _ :: _ => Throw TypeError
           end
      else calculateSplit amount ps method None.
Proof.
  split.
  - by intros [d|].
  - unfold calculateSplit_call, calculateSplit.
    destruct (String.eqb_spec (default "equal"%string method) "equal")
      as [->|_]; [done|].
    destruct (String.eqb (default "equal"%string method) "exact"); [done|].
    destruct (String.eqb (default "equal"%string method) "percentage");
      [|done].
    by destruct ps.
Qed.

(** ** formatPhoneNumber *)

Lemma filter_filter_same {X : Type} (f : X → bool) (l : list X) :
  List.filter f (List.filter f l) = List.filter f l.
Proof.
  induction l as [|x l IH]; [done|]. cbn.
  destruct (f x) eqn:Hx; [|done]. cbn. by rewrite Hx, IH.
Qed.

(** The three groups [formatPhoneNumber] cuts out of ten digits are the
    ten digits. *)
Lemma substring_groups (l : list N) :
  length l = 10%nat →
  substring l 0 3 ++ substring l 3 6 ++ substring_from l 6 = l.
Proof.
  intros Hlen. unfold substring, substring_from, clamp. rewrite Hlen.
  change (Z.to_nat 0) with 0%nat. change (Z.to_nat 3) with 3%nat.
  change (Z.to_nat 6) with 6%nat. cbn [Nat.min Nat.max Nat.sub drop].
  assert (Hrest : take 3 (drop 3 l) ++ drop 6 l = drop 3 l)
    by (change 6%nat with (3 + 3)%nat; rewrite <- drop_drop; apply take_drop).
  rewrite Hrest. apply take_drop.
Qed.

Lemma digits_of_formatted (phone : list N) :
  List.filter is_digit (formatPhoneNumber phone) = List.filter is_digit phone.
Proof.
  unfold formatPhoneNumber.
  destruct (Nat.eqb_spec (length (List.filter is_digit phone)) 10)
    as [Hten|_]; [|done].
  rewrite !List.filter_app.
  change (List.filter is_digit (js "(")) with (@nil N).
  change (List.filter is_digit (js ") ")) with (@nil N).
  change (List.filter is_digit (js "-")) with (@nil N).
  cbn [app]. rewrite <- !List.filter_app, substring_groups by done.
  apply filter_filter_same.
Qed.

(** Formatting keeps the digits of a phone number, in order, whether it
    rewrites the number or returns it as it is. *)
Theorem formatPhoneNumber_keeps_digits (phone : list N) :
  List.filter is_digit (formatPhoneNumber phone) = List.filter is_digit phone.
Proof. apply digits_of_formatted. Qed.

(** Formatting a formatted number changes nothing. *)
Theorem formatPhoneNumber_idempotent (phone : list N) :
  formatPhoneNumber (formatPhoneNumber phone) = formatPhoneNumber phone.
Proof.
  unfold formatPhoneNumber at 1. rewrite digits_of_formatted.
  unfold formatPhoneNumber.
  by destruct (Nat.eqb (length (List.filter is_digit phone)) 10).
Qed.

(** A number with exactly ten digits, however it was typed, comes out as
    the fourteen code units "(ddd) ddd-dddd". *)
Theorem formatPhoneNumber_ten_digits (phone : list N) :
  length (List.filter is_digit phone) = 10%nat →
  ∃ a b c, List.filter is_digit phone = a ++ b ++ c
           ∧ length a = 3%nat ∧ length b = 3%nat ∧ length c = 4%nat
           ∧ formatPhoneNumber phone
             = js "(" ++ a ++ js ") " ++ b ++ js "-" ++ c.
Proof.
  intros Hten. unfold formatPhoneNumber. rewrite Hten. cbn [Nat.eqb].
  eexists _, _, _. split; [symmetry; by apply substring_groups|].
  unfold substring, substring_from, clamp. rewrite Hten.
  change (Z.to_nat 0) with 0%nat. change (Z.to_nat 3) with 3%nat.
  change (Z.to_nat 6) with 6%nat. cbn [Nat.min Nat.max Nat.sub drop].
  rewrite !length_take, !length_drop, Hten. done.
Qed.

Lemma formatPhoneNumber_ten_digits_witness :
  length (List.filter is_digit (js "555.123.4567")) = 10%nat
  ∧ ∃ a b c, List.filter is_digit (js "555.123.4567") = a ++ b ++ c
           ∧ length a = 3%nat ∧ length b = 3%nat ∧ length c = 4%nat
           ∧ formatPhoneNumber (js "555.123.4567")
             = js "(" ++ a ++ js ") " ++ b ++ js "-" ++ c.
Proof.
  split; [reflexivity|].
  exact (formatPhoneNumber_ten_digits (js "555.123.4567") eq_refl).
Defined.

Example formatPhoneNumber_dotted :
  formatPhoneNumber (js "555.123.4567") = js "(555) 123-4567".
Proof. reflexivity. Qed.

(** ** truncateText *)

(** [substring(0, n)] is the prefix of [n] code units, the whole string
    when it is shorter and the empty one when [n] is negative. *)
Lemma substring_prefix (s : list N) (n : Z) :
  substring s 0 n = take (Z.to_nat n) s.
Proof.
  unfold substring, clamp. change (Z.to_nat 0) with 0%nat.
  rewrite Nat.min_0_l, Nat.max_0_l, Nat.min_0_l, Nat.sub_0_r, drop_0.
  destruct (Nat.min_spec (Z.to_nat n) (length s)) as [[_ Hmin]|[Hge Hmin]];
    rewrite Hmin; [done|].
  rewrite (take_ge s (length s)) by lia. by rewrite take_ge by lia.
Qed.

(** The result never has more than maxLength + 3 code units (3 when
    maxLength is negative); the three dots come on top of the maxLength
    code units kept, so a text of maxLength + 1 code units gets longer. *)
Theorem truncateText_length (text : option (list N)) (maxLength : option Z) :
  Z.of_nat (length (truncateText text maxLength))
  ≤ Z.max 0 (default 50 maxLength) + 3.
Proof.
  unfold truncateText. set (m := default 50 maxLength).
  destruct text as [[|c text]|]; [cbn; lia| |cbn; lia].
  set (t := c :: text).
  destruct (Z.leb_spec (Z.of_nat (length t)) m) as [Hshort|Hlong]; [lia|].
  rewrite length_app, substring_prefix, length_take.
  change (length (js "...")) with 3%nat. lia.
Qed.

(** Truncating a truncated text with the same maxLength changes nothing. *)
Theorem truncateText_idempotent (text : option (list N))
    (maxLength : option Z) :
  truncateText (Some (truncateText text maxLength)) maxLength
  = truncateText text maxLength.
Proof.
  unfold truncateText. set (m := default 50 maxLength).
  destruct text as [[|c text]|]; [done| |done].
  set (t := c :: text).
  destruct (Z.leb_spec (Z.of_nat (length t)) m) as [Hshort|Hlong].
  - subst t. by destruct (Z.leb_spec (Z.of_nat (length (c :: text))) m); [|lia].
  - rewrite substring_prefix.
    assert (Hlen : length (take (Z.to_nat m) t) = Z.to_nat m)
      by (rewrite length_take; lia).
    destruct (take (Z.to_nat m) t ++ js "...") as [|c' r] eqn:Hr.
    { apply (f_equal length) in Hr. rewrite length_app in Hr.
      change (length (js "...")) with 3%nat in Hr. cbn in Hr. lia. }
    rewrite <- Hr.
    destruct (Z.leb_spec
                (Z.of_nat (length (take (Z.to_nat m) t ++ js "..."))) m)
      as [Hshort'|_].
    { rewrite length_app, Hlen in Hshort'.
      change (length (js "...")) with 3%nat in Hshort'. lia. }
    by rewrite substring_prefix, take_app_length'.
Qed.

(** ** getInitials *)

Lemma split_on_nonempty (sep : N) (s : list N) : split_on sep s ≠ [].
Proof.
  induction s as [|c s IH]; [done|]. cbn.
  destruct (c =? sep)%N; [done|]. by destruct (split_on sep s).
Qed.

(** A piece without the separator followed by a separator is the first
    piece of the split. *)
Lemma split_on_cons_piece (sep : N) (w s : list N) :
  sep ∉ w → split_on sep (w ++ sep :: s) = w :: split_on sep s.
Proof.
  induction w as [|c w IH]; intros Hw; cbn.
  - by rewrite N.eqb_refl.
  - apply not_elem_of_cons in Hw as [Hc Hw].
    destruct (N.eqb_spec c sep) as [->|_]; [done|]. by rewrite IH.
Qed.

Lemma split_on_one_piece (sep : N) (w : list N) :
  sep ∉ w → split_on sep w = [w].
Proof.
  induction w as [|c w IH]; intros Hw; [done|]. cbn.
  apply not_elem_of_cons in Hw as [Hc Hw].
  destruct (N.eqb_spec c sep) as [->|_]; [done|]. by rewrite IH.
Qed.

(** The initials are the upper-cased first code units of the first two
    pieces between spaces, and only of those: a name of one word gives one
    initial, and whatever follows the second word is ignored.  A piece may
    be empty: a name that starts with a space has an empty first piece and
    gives the initial of its first word alone. *)
Theorem getInitials_first_two_words (toUpperCase : list N → list N)
    (w1 w2 : list N) (rest : option (list N)) :
  32%N ∉ w1 → 32%N ∉ w2 →
  (w1 ≠ [] → getInitials toUpperCase (Some w1) = toUpperCase (take 1 w1))
  ∧ getInitials toUpperCase
      (Some (w1 ++ 32%N :: w2 ++ from_option (cons 32%N) [] rest))
    = toUpperCase (take 1 w1) ++ toUpperCase (take 1 w2).
Proof.
  intros Hw1 Hw2. split.
  - intros Hne. destruct w1 as [|c w1]; [done|].
    unfold getInitials. rewrite split_on_one_piece by done.
    cbn. by rewrite ?app_nil_r.
  - unfold getInitials.
    destruct (w1 ++ 32%N :: w2 ++ from_option (cons 32%N) [] rest)
      as [|c name] eqn:Hname; [by destruct w1|].
    rewrite <- Hname, split_on_cons_piece by done.
    assert (Hsecond : ∃ ws, split_on 32 (w2 ++ from_option (cons 32%N) [] rest)
                            = w2 :: ws).
    { destruct rest as [rest|]; cbn.
      - eexists. by apply split_on_cons_piece.
      - exists []. rewrite app_nil_r. by apply split_on_one_piece. }
    destruct Hsecond as [ws ->]. cbn. by rewrite ?app_nil_r.
Qed.

Lemma getInitials_first_two_words_witness :
  ((32%N ∉ js "john") ∧ (32%N ∉ js "smith"))
  ∧ (js "john" ≠ [] → getInitials ascii_upper (Some (js "john")) = js "J")
  ∧ getInitials ascii_upper (Some (js "john smith doe")) = js "JS".
Proof.
  assert (H1 : 32%N ∉ (js "john"))
    by (apply (bool_decide_unpack _); vm_compute; exact I).
  assert (H2 : 32%N ∉ (js "smith"))
    by (apply (bool_decide_unpack _); vm_compute; exact I).
  split; [done|].
  exact (getInitials_first_two_words ascii_upper (js "john") (js "smith")
           (Some (js "doe")) H1 H2).
Defined.

Example getInitials_leading_space :
  getInitials ascii_upper (Some (js " john smith")) = js "J".
Proof. reflexivity. Qed.

(** ** generateColor *)

(** A seed has a colour exactly when it is not negative or is a multiple
    of ten; every other negative seed indexes the palette with a negative
    number and gets [undefined].  Seeds ten apart share their colour. *)
Theorem generateColor_defined (seed : Z) :
  (is_Some (generateColor seed) ↔ 0 ≤ seed ∨ (10 | seed))
  ∧ (0 ≤ seed → generateColor (seed + 10) = generateColor seed).
Proof.
  unfold generateColor. change (Z.of_nat (length colors)) with 10. split.
  - destruct (Z.ltb_spec (Z.rem seed 10) 0) as [Hneg|Hpos].
    + split; [by intros [? ?]|]. intros [Hseed|Hdiv].
      * pose proof (Z.rem_nonneg seed 10). lia.
      * apply Z.rem_divide in Hdiv; lia.
    + split.
      * intros _. destruct (Z.le_gt_cases 0 seed) as [?|Hseed]; [by left|].
        right. apply Z.rem_divide; [lia|].
        pose proof (Z.rem_nonpos seed 10). lia.
      * intros _. apply lookup_lt_is_Some. change (length colors) with 10%nat.
        pose proof (Z.rem_bound_abs seed 10). lia.
  - intros Hseed. rewrite !Z.rem_mod_nonneg by lia.
    replace ((seed + 10) mod 10) with (seed mod 10)
      by (rewrite <- (Z.mod_add seed 1 10) by lia; f_equal; lia).
    done.
Qed.

Lemma generateColor_defined_witness :
  (is_Some (generateColor 23) ↔ 0 ≤ 23 ∨ (10 | 23))
  ∧ (0 ≤ 23 → generateColor (23 + 10) = generateColor 23).
Proof. exact (generateColor_defined 23). Defined.

Example generateColor_negative_seed :
  generateColor 23 = Some "#f59e0b"%string ∧ generateColor (-23) = None
  ∧ generateColor (-20) = Some "#3b82f6"%string.
Proof. done. Qed.

(** ** getBalanceColor *)

(** The colour follows the sign: green exactly for a balance above zero,
    red exactly for one below, grey for both zeros and for NaN; the colour
    of the opposite balance is the opposite colour. *)
Theorem getBalanceColor_sign (balance : number) :
  (getBalanceColor balance = "text-gray-600"%string
   ↔ is_zero balance = true ∨ balance = S754_nan)
  ∧ (getBalanceColor (SFopp balance) = "text-green-600"%string
     ↔ getBalanceColor balance = "text-red-600"%string)
  ∧ (getBalanceColor (SFopp balance) = "text-red-600"%string
     ↔ getBalanceColor balance = "text-green-600"%string).
Proof.
  destruct balance as [[]|[]| |[] m e]; cbn;
    repeat split; (try done); (try by left); (try by right);
    (try by intros [|]); try by intros [? ?].
Qed.

(** ** The regular expression matcher *)

Lemma nullable_lang (r : regex) : nullable r = true ↔ lang r [].
Proof.
  induction r as [| |p|r1 IH1 r2 IH2|r1 IH1 r2 IH2|r IH]; cbn.
  - split; [done | intros H; inversion H].
  - split; [constructor | done].
  - split; [done | intros H; inversion H].
  - rewrite andb_true_iff, IH1, IH2. split.
    + intros [H1 H2]. by apply (lang_seq r1 r2 [] []).
    + intros H. inversion H as [| |? ? s1 s2 H1 H2 E1 E2| | | |]; subst.
      by apply app_eq_nil in E2 as [-> ->].
  - rewrite orb_true_iff, IH1, IH2. split.
    + intros [H|H]; [by apply lang_alt_l | by apply lang_alt_r].
    + intros H. inversion H; subst; tauto.
  - split; [constructor | done].
Qed.

(** A non-empty string of [r*] starts with a non-empty string of [r]. *)
Lemma lang_star_uncons (r : regex) (c : N) (s : list N) :
  lang (Star r) (c :: s) →
  ∃ s1 s2, s = s1 ++ s2 ∧ lang r (c :: s1) ∧ lang (Star r) s2.
Proof.
  intros H. remember (Star r) as r' eqn:Hr. remember (c :: s) as s' eqn:Hs.
  revert Hr Hs. induction H as [| | | | | |r0 s1 s2 H1 _ H2 IH2];
    intros Hr Hs; try discriminate.
  injection Hr as ->. destruct s1 as [|c1 s1].
  - by apply IH2.
  - injection Hs as -> <-. by exists s1, s2.
Qed.

Lemma derive_lang (c : N) (r : regex) (s : list N) :
  lang (derive c r) s ↔ lang r (c :: s).
Proof.
  revert s. induction r as [| |p|r1 IH1 r2 IH2|r1 IH1 r2 IH2|r IH];
    intros s; cbn.
  - split; intros H; inversion H.
  - split; intros H; inversion H.
  - destruct (p c) eqn:Hp; split; intros H; inversion H; subst.
    + by constructor.
    + constructor.
    + congruence.
  - assert (Hcons : lang (Seq (derive c r1) r2) s
                    ↔ ∃ s1 s2, s = s1 ++ s2 ∧ lang r1 (c :: s1) ∧ lang r2 s2).
    { split.
      - intros H. inversion H as [| |? ? s1 s2 H1 H2| | | |]; subst.
        exists s1, s2. by rewrite <- IH1.
      - intros (s1 & s2 & -> & H1 & H2). constructor; [by apply IH1 | done]. }
    assert (Hsplit : lang (Seq r1 r2) (c :: s)
                     ↔ (lang r1 [] ∧ lang r2 (c :: s))
                       ∨ ∃ s1 s2, s = s1 ++ s2 ∧ lang r1 (c :: s1) ∧ lang r2 s2).
    { split.
      - intros H. inversion H as [| |? ? s1 s2 H1 H2 E1 E2| | | |]; subst.
        destruct s1 as [|c1 s1]; cbn in E2.
        + left. by subst.
        + injection E2 as -> <-. right. by exists s1, s2.
      - intros [[H1 H2]|(s1 & s2 & -> & H1 & H2)].
        + by apply (lang_seq r1 r2 []).
        + by apply (lang_seq r1 r2 (c :: s1)). }
    rewrite Hsplit. destruct (nullable r1) eqn:Hnull.
    + apply nullable_lang in Hnull. split.
      * intros H. inversion H; subst; [right; by apply Hcons|].
        left. split; [done | by apply IH2].
      * intros [[_ H2]|H]; [apply lang_alt_r; by apply IH2|].
        apply lang_alt_l. by apply Hcons.
    + rewrite Hcons. split; [by right|]. intros [[H1 _]|H]; [|done].
      apply nullable_lang in H1. congruence.
  - split.
    + intros H. inversion H; subst;
        [apply lang_alt_l; by apply IH1 | apply lang_alt_r; by apply IH2].
    + intros H. inversion H; subst;
        [apply lang_alt_l; by apply IH1 | apply lang_alt_r; by apply IH2].
  - split.
    + intros H. inversion H as [| |? ? s1 s2 H1 H2| | | |]; subst.
      apply (lang_star_cons r (c :: s1)); [by apply IH | done].
    + intros H. apply lang_star_uncons in H as (s1 & s2 & -> & H1 & H2).
      constructor; [by apply IH | done].
Qed.

(** The matcher decides the language of the pattern. *)
Lemma test_lang (r : regex) (s : list N) : test r s = true ↔ lang r s.
Proof.
  revert r. induction s as [|c s IH]; intros r; cbn.
  - apply nullable_lang.
  - by rewrite IH, derive_lang.
Qed.

(** *** The strings of the derived forms *)

Lemma lang_seq_iff (r1 r2 : regex) (s : list N) :
  lang (Seq r1 r2) s ↔ ∃ s1 s2, s = s1 ++ s2 ∧ lang r1 s1 ∧ lang r2 s2.
Proof.
  split.
  - intros H. inversion H; subst. by eexists _, _.
  - intros (s1 & s2 & -> & H1 & H2). by constructor.
Qed.

Lemma lang_class_iff (p : N → bool) (s : list N) :
  lang (Class p) s ↔ ∃ c, s = [c] ∧ p c = true.
Proof.
  split.
  - intros H. inversion H; subst. by eexists.
  - intros (c & -> & Hc). by constructor.
Qed.

Lemma lang_char_iff (a : ascii) (s : list N) : lang (Char a) s ↔ s = [chr a].
Proof.
  unfold Char. rewrite lang_class_iff. split.
  - intros (c & -> & Hc). apply N.eqb_eq in Hc. by subst.
  - intros ->. exists (chr a). by rewrite N.eqb_refl.
Qed.

Lemma lang_opt_iff (r : regex) (s : list N) :
  lang (Opt r) s ↔ s = [] ∨ lang r s.
Proof.
  unfold Opt. split.
  - intros H. inversion H as [| | |? ? ? H1|? ? ? H1| |]; subst; [|by right].
    inversion H1. by left.
  - intros [->|H]; [apply lang_alt_l; constructor | by apply lang_alt_r].
Qed.

Lemma lang_star_class (p : N → bool) (s : list N) :
  lang (Star (Class p)) s ↔ Forall (fun c => p c = true) s.
Proof.
  split.
  - intros H. remember (Star (Class p)) as r eqn:Hr. revert Hr.
    induction H as [| | | | | |r0 s1 s2 H1 _ H2 IH2]; intros Hr;
      try discriminate; [constructor|].
    injection Hr as ->. apply Forall_app. split; [|by apply IH2].
    inversion H1; subst. by repeat constructor.
  - induction 1 as [|c s Hc _ IH]; [constructor|].
    apply (lang_star_cons _ [c]); [by constructor | done].
Qed.

Lemma lang_plus_class (p : N → bool) (s : list N) :
  lang (Plus (Class p)) s ↔ s ≠ [] ∧ Forall (fun c => p c = true) s.
Proof.
  unfold Plus. rewrite lang_seq_iff. split.
  - intros (s1 & s2 & -> & H1 & H2).
    apply lang_class_iff in H1 as (c & -> & Hc).
    apply lang_star_class in H2. split; [done | by constructor].
  - intros [Hne Hs]. destruct s as [|c s]; [done|].
    apply Forall_cons in Hs as [Hc Hs]. exists [c], s.
    split; [done|]. split; [by constructor | by apply lang_star_class].
Qed.

Lemma lang_times_class (n : nat) (p : N → bool) (s : list N) :
  lang (Times n (Class p)) s
  ↔ length s = n ∧ Forall (fun c => p c = true) s.
Proof.
  revert s. induction n as [|n IH]; intros s; cbn [Times].
  - split.
    + intros H. inversion H. by split.
    + intros [Hlen _]. apply nil_length_inv in Hlen as ->. constructor.
  - rewrite lang_seq_iff. split.
    + intros (s1 & s2 & -> & H1 & H2).
      apply lang_class_iff in H1 as (c & -> & Hc).
      apply IH in H2 as [<- Hs]. split; [done | by constructor].
    + intros [Hlen Hs]. destruct s as [|c s]; [done|].
      apply Forall_cons in Hs as [Hc Hs]. exists [c], s.
      split; [done|]. split; [by constructor|].
      apply IH. split; [by injection Hlen | done].
Qed.

Lemma lang_at_most_class (n : nat) (p : N → bool) (s : list N) :
  lang (AtMost n (Class p)) s
  ↔ (length s ≤ n)%nat ∧ Forall (fun c => p c = true) s.
Proof.
  revert s. induction n as [|n IH]; intros s; cbn [AtMost].
  - split.
    + intros H. inversion H. by split.
    + intros [Hlen _]. destruct s; [constructor | cbn in Hlen; lia].
  - rewrite lang_opt_iff, lang_seq_iff. split.
    + intros [->|(s1 & s2 & -> & H1 & H2)]; [split; [cbn; lia | constructor]|].
      apply lang_class_iff in H1 as (c & -> & Hc).
      apply IH in H2 as [Hlen Hs]. split; [cbn; lia | by constructor].
    + intros [Hlen Hs]. destruct s as [|c s]; [by left|]. right.
      apply Forall_cons in Hs as [Hc Hs]. exists [c], s.
      split; [done|]. split; [by constructor|].
      apply IH. split; [cbn in Hlen; lia | done].
Qed.

Lemma lang_between_class (n m : nat) (p : N → bool) (s : list N) :
  (n ≤ m)%nat →
  lang (Between n m (Class p)) s
  ↔ (n ≤ length s ≤ m)%nat ∧ Forall (fun c => p c = true) s.
Proof.
  intros Hnm. unfold Between. rewrite lang_seq_iff. split.
  - intros (s1 & s2 & -> & H1 & H2).
    apply lang_times_class in H1 as [Hlen1 Hs1].
    apply lang_at_most_class in H2 as [Hlen2 Hs2].
    rewrite length_app. split; [lia | by apply Forall_app].
  - intros [Hlen Hs]. exists (take n s), (drop n s).
    split; [by rewrite take_drop|]. split.
    + apply lang_times_class. split; [rewrite length_take; lia|].
      by apply Forall_take.
    + apply lang_at_most_class. split; [rewrite length_drop; lia|].
      by apply Forall_drop.
Qed.

Lemma lang_at_least_class (n : nat) (p : N → bool) (s : list N) :
  lang (AtLeast n (Class p)) s
  ↔ (n ≤ length s)%nat ∧ Forall (fun c => p c = true) s.
Proof.
  unfold AtLeast. rewrite lang_seq_iff. split.
  - intros (s1 & s2 & -> & H1 & H2).
    apply lang_times_class in H1 as [Hlen1 Hs1].
    apply lang_star_class in H2.
    rewrite length_app. split; [lia | by apply Forall_app].
  - intros [Hlen Hs]. exists (take n s), (drop n s).
    split; [by rewrite take_drop|]. split.
    + apply lang_times_class. split; [rewrite length_take; lia|].
      by apply Forall_take.
    + apply lang_star_class. by apply Forall_drop.
Qed.

(** ** validateEmail and validatePhone *)

(** Character classes as arithmetic on code units. *)
Ltac eval_chr :=
  repeat match goal with
    | |- context [chr ?a] =>
        let x := eval vm_compute in (chr a) in change (chr a) with x
    | H : context [chr ?a] |- _ =>
        let x := eval vm_compute in (chr a) in change (chr a) with x in H
    end.

Ltac class_arith :=
  unfold rule_local, rule_domain, is_letter, in_range, is_digit,
    not_space_or_at, phone_separator, is_space in *;
  eval_chr;
  repeat (progress
            (rewrite ?negb_true_iff, ?negb_false_iff, ?andb_true_iff,
               ?orb_true_iff, ?orb_false_iff, ?andb_false_iff,
               ?N.leb_le, ?N.leb_gt, ?N.eqb_eq, ?N.eqb_neq in *));
  lia.

Lemma rule_local_plain (c : N) :
  rule_local c = true → not_space_or_at c = true.
Proof. intros H. class_arith. Qed.

Lemma rule_domain_plain (c : N) :
  rule_domain c = true → not_space_or_at c = true.
Proof. intros H. class_arith. Qed.

Lemma is_letter_plain (c : N) :
  is_letter c = true → not_space_or_at c = true.
Proof. intros H. class_arith. Qed.

Lemma is_digit_not_separator (c : N) :
  is_digit c = true → phone_separator c = false.
Proof. intros H. class_arith. Qed.

Lemma not_space_or_at_inv (c : N) :
  not_space_or_at c = true → is_space c = false ∧ c ≠ chr "@".
Proof.
  unfold not_space_or_at.
  rewrite andb_true_iff, !negb_true_iff, N.eqb_neq. tauto.
Qed.

Lemma filter_keeps_all {X : Type} (f : X → bool) (l : list X) :
  Forall (fun x => f x = true) l → List.filter f l = l.
Proof.
  induction 1 as [|x l Hx _ IH]; [done|]. cbn. by rewrite Hx, IH.
Qed.

Lemma filter_drops_all {X : Type} (f : X → bool) (l : list X) :
  Forall (fun x => f x = false) l → List.filter f l = [].
Proof.
  induction 1 as [|x l Hx _ IH]; [done|]. cbn. by rewrite Hx, IH.
Qed.

Lemma Forall_filter_true {X : Type} (f : X → bool) (l : list X) :
  Forall (fun x => f x = true) (List.filter f l).
Proof.
  induction l as [|x l IH]; [constructor|]. cbn.
  destruct (f x) eqn:Hx; [by constructor | done].
Qed.

(** The strings of the e-mail pattern. *)
Lemma emailRegex_lang (s : list N) :
  lang emailRegex s
  ↔ ∃ name domain tld,
      s = name ++ chr "@" :: domain ++ chr "." :: tld
      ∧ name ≠ [] ∧ domain ≠ [] ∧ tld ≠ []
      ∧ Forall (fun c => not_space_or_at c = true) (name ++ domain ++ tld).
Proof.
  unfold emailRegex. split.
  - intros H.
    apply lang_seq_iff in H as (name & s1 & -> & Hname & H).
    apply lang_seq_iff in H as (at_ & s2 & -> & Hat & H).
    apply lang_seq_iff in H as (domain & s3 & -> & Hdomain & H).
    apply lang_seq_iff in H as (dot & tld & -> & Hdot & Htld).
    apply lang_char_iff in Hat as ->. apply lang_char_iff in Hdot as ->.
    apply lang_plus_class in Hname as [? ?], Hdomain as [? ?], Htld as [? ?].
    exists name, domain, tld. repeat split; try done.
    by rewrite !Forall_app.
  - intros (name & domain & tld & -> & ? & ? & ? & Hall).
    rewrite !Forall_app in Hall. destruct Hall as (? & ? & ?).
    apply (lang_seq _ _ name); [by apply lang_plus_class|].
    apply (lang_seq _ _ [chr "@"]); [by apply lang_char_iff|].
    apply (lang_seq _ _ domain); [by apply lang_plus_class|].
    apply (lang_seq _ _ [chr "."]); [by apply lang_char_iff|].
    by apply lang_plus_class.
Qed.

(** [validateEmail] accepts exactly the strings name@domain.tld whose
    three parts are non-empty and free of whitespace and of '@' (the
    domain may itself hold dots). *)
Theorem validateEmail_accepts (email : list N) :
  validateEmail email = true
  ↔ ∃ name domain tld,
      email = name ++ chr "@" :: domain ++ chr "." :: tld
      ∧ name ≠ [] ∧ domain ≠ [] ∧ tld ≠ []
      ∧ Forall (fun c => not_space_or_at c = true) (name ++ domain ++ tld).
Proof. unfold validateEmail. rewrite test_lang. apply emailRegex_lang. Qed.

(** An address [validateEmail] accepts holds exactly one '@', no
    whitespace, and at least five code units. *)
Theorem validateEmail_one_at (email : list N) :
  validateEmail email = true →
  length (List.filter (N.eqb (chr "@")) email) = 1%nat
  ∧ Forall (fun c => is_space c = false) email
  ∧ (5 ≤ length email)%nat.
Proof.
  unfold validateEmail. rewrite test_lang, emailRegex_lang.
  intros (name & domain & tld & -> & Hname & Hdomain & Htld & Hall).
  rewrite !Forall_app in Hall. destruct Hall as (Hn & Hd & Ht).
  assert (Hno_at : ∀ l, Forall (fun c => not_space_or_at c = true) l →
                        List.filter (N.eqb (chr "@")) l = []).
  { intros l Hl. apply filter_drops_all. eapply Forall_impl; [exact Hl|].
    intros c Hc. apply not_space_or_at_inv in Hc as [_ Hc].
    by apply N.eqb_neq. }
  assert (Hno_space : ∀ l, Forall (fun c => not_space_or_at c = true) l →
                           Forall (fun c => is_space c = false) l).
  { intros l Hl. eapply Forall_impl; [exact Hl|].
    intros c Hc. by apply not_space_or_at_inv in Hc as [? _]. }
  split; [|split].
  - rewrite List.filter_app. cbn [List.filter]. rewrite N.eqb_refl.
    rewrite List.filter_app. cbn [List.filter].
    change (chr "@" =? chr ".")%N with false. cbn iota.
    by rewrite !Hno_at.
  - rewrite Forall_app, Forall_cons, Forall_app, Forall_cons.
    repeat split; auto.
  - rewrite length_app. cbn [length]. rewrite length_app. cbn [length].
    destruct name, domain, tld; cbn [length]; try done; lia.
Qed.

Lemma validateEmail_one_at_witness :
  validateEmail (js "ana@example.com") = true
  ∧ length (List.filter (N.eqb (chr "@")) (js "ana@example.com")) = 1%nat
  ∧ Forall (fun c => is_space c = false) (js "ana@example.com")
  ∧ (5 ≤ length (js "ana@example.com"))%nat.
Proof.
  split; [reflexivity|].
  exact (validateEmail_one_at (js "ana@example.com") eq_refl).
Defined.

(** The form rule is the stricter one: every address that passes
    VALIDATION_RULES.EMAIL passes [validateEmail]. *)
Theorem EMAIL_rule_implies_validateEmail (email : list N) :
  test EMAIL email = true → validateEmail email = true.
Proof.
  unfold validateEmail. rewrite !test_lang, emailRegex_lang. unfold EMAIL.
  intros H.
  apply lang_seq_iff in H as (name & s1 & -> & Hname & H).
  apply lang_seq_iff in H as (at_ & s2 & -> & Hat & H).
  apply lang_seq_iff in H as (domain & s3 & -> & Hdomain & H).
  apply lang_seq_iff in H as (dot & tld & -> & Hdot & Htld).
  apply lang_char_iff in Hat as ->. apply lang_char_iff in Hdot as ->.
  apply lang_plus_class in Hname as [? Hn], Hdomain as [? Hd].
  apply lang_at_least_class in Htld as [Hlen Ht].
  exists name, domain, tld. repeat split; try done.
  - intros ->. cbn in Hlen. lia.
  - rewrite !Forall_app. repeat split.
    + eapply Forall_impl; [exact Hn | apply rule_local_plain].
    + eapply Forall_impl; [exact Hd | apply rule_domain_plain].
    + eapply Forall_impl; [exact Ht | apply is_letter_plain].
Qed.

Lemma EMAIL_rule_implies_validateEmail_witness :
  test EMAIL (js "ana.b+c@mail.example.org") = true
  ∧ validateEmail (js "ana.b+c@mail.example.org") = true.
Proof.
  split; [reflexivity|].
  exact (EMAIL_rule_implies_validateEmail (js "ana.b+c@mail.example.org")
           eq_refl).
Defined.

(** [validateEmail] is the looser one: it lets through what the rule
    refuses. *)
Example validateEmail_looser :
  validateEmail (js "a@b.c") = true ∧ test EMAIL (js "a@b.c") = false
  ∧ validateEmail (js "a b@c.de") = false.
Proof. done. Qed.

(** The strings of the phone pattern. *)
Lemma phoneRegex_lang (s : list N) :
  lang phoneRegex s
  ↔ ∃ plus d ds,
      s = plus ++ d :: ds ∧ (plus = [] ∨ plus = [chr "+"])
      ∧ in_range "1" "9" d = true
      ∧ (1 ≤ length ds ≤ 14)%nat ∧ Forall (fun c => is_digit c = true) ds.
Proof.
  unfold phoneRegex. split.
  - intros H.
    apply lang_seq_iff in H as (plus & s1 & -> & Hplus & H).
    apply lang_seq_iff in H as (first & ds & -> & Hfirst & Hds).
    apply lang_class_iff in Hfirst as (d & -> & Hd).
    apply lang_between_class in Hds as [Hlen Hds]; [|lia].
    apply lang_opt_iff in Hplus.
    exists plus, d, ds. repeat split; try done; try lia.
    destruct Hplus as [->|Hplus]; [by left|].
    right. by apply lang_char_iff.
  - intros (plus & d & ds & -> & Hplus & Hd & Hlen & Hds).
    apply (lang_seq _ _ plus).
    { apply lang_opt_iff.
      destruct Hplus as [->| ->]; [by left | right; by apply lang_char_iff]. }
    apply (lang_seq _ _ [d]); [by constructor|].
    apply lang_between_class; [lia | done].
Qed.

(** [validatePhone] looks at the number without whitespace, dashes and
    parentheses, and accepts it exactly when that is an optional '+', a
    digit from 1 to 9 and one to fourteen more digits. *)
Theorem validatePhone_accepts (phone : list N) :
  validatePhone phone = true
  ↔ ∃ plus d ds,
      List.filter (fun c => negb (phone_separator c)) phone = plus ++ d :: ds
      ∧ (plus = [] ∨ plus = [chr "+"])
      ∧ in_range "1" "9" d = true
      ∧ (1 ≤ length ds ≤ 14)%nat ∧ Forall (fun c => is_digit c = true) ds.
Proof. unfold validatePhone. rewrite test_lang. apply phoneRegex_lang. Qed.

(** Digits survive the removal of the separators. *)
Lemma digits_not_separators (l : list N) :
  Forall (fun c => is_digit c = true) l →
  List.filter (fun c => negb (phone_separator c)) l = l.
Proof.
  intros Hl. apply filter_keeps_all. eapply Forall_impl; [exact Hl|].
  intros c Hc. cbn. by rewrite is_digit_not_separator.
Qed.

(** Ten digits with a first digit [d] pass the phone pattern exactly
    when [d] is not 0. *)
Lemma ten_digits_test (d : N) (ds : list N) :
  Forall (fun c => is_digit c = true) (d :: ds) → length ds = 9%nat →
  test phoneRegex (d :: ds) = negb (d =? chr "0")%N.
Proof.
  intros Hall Hlen. apply Forall_cons in Hall as [Hd Hds].
  apply eq_true_iff_eq. rewrite test_lang, phoneRegex_lang. split.
  - intros (plus & d' & ds' & Heq & [->| ->] & Hd' & _).
    + injection Heq as <- _. class_arith.
    + injection Heq as -> _. by vm_compute in Hd.
  - intros Hnot0. exists [], d, ds. repeat split; try done; try lia.
    + by left.
    + class_arith.
Qed.

(** Whatever [formatPhoneNumber] makes of a number with ten digits passes
    [validatePhone], unless the first digit is 0. *)
Theorem formatted_phone_validates (phone : list N) (d : N) (ds : list N) :
  List.filter is_digit phone = d :: ds → length ds = 9%nat →
  validatePhone (formatPhoneNumber phone) = negb (d =? chr "0")%N.
Proof.
  intros Hdigits Hlen.
  assert (Hten : length (List.filter is_digit phone) = 10%nat)
    by (rewrite Hdigits; cbn; lia).
  assert (Hall : Forall (fun c => is_digit c = true) (d :: ds))
    by (rewrite <- Hdigits; apply Forall_filter_true).
  unfold validatePhone, formatPhoneNumber. rewrite Hten. cbn [Nat.eqb].
  rewrite !List.filter_app.
  change (List.filter _ (js "(")) with (@nil N).
  change (List.filter _ (js ") ")) with (@nil N).
  change (List.filter _ (js "-")) with (@nil N).
  cbn [app]. rewrite <- !List.filter_app, substring_groups by done.
  rewrite Hdigits, digits_not_separators by done.
  by apply ten_digits_test.
Qed.

Lemma formatted_phone_validates_witness :
  (List.filter is_digit (js "555.123.4567") = 53%N :: js "551234567"
   ∧ length (js "551234567") = 9%nat)
  ∧ validatePhone (formatPhoneNumber (js "555.123.4567"))
    = negb (53 =? chr "0")%N.
Proof.
  split; [split; reflexivity|].
  exact (formatted_phone_validates (js "555.123.4567") 53%N (js "551234567")
           eq_refl eq_refl).
Defined.

(** A number that passes VALIDATION_RULES.PHONE passes [validatePhone]
    unless its first digit is 0: the helper refuses the leading zero that
    the rule admits. *)
Theorem PHONE_rule_vs_validatePhone (phone : list N) :
  test PHONE phone = true →
  ∃ d ds, List.filter is_digit phone = d :: ds
          ∧ validatePhone phone = negb (d =? chr "0")%N.
Proof.
  rewrite test_lang. unfold PHONE. intros H.
  apply lang_seq_iff in H as (plus & digs & -> & Hplus & Hdigs).
  apply lang_between_class in Hdigs as [Hlen Hdigs]; [|lia].
  change (in_range "0" "9") with is_digit in Hdigs.
  assert (Hplus' : plus = [] ∨ plus = [chr "+"]).
  { apply lang_opt_iff in Hplus as [->|Hplus]; [by left|].
    right. by apply lang_char_iff. }
  destruct digs as [|d ds]; [cbn in Hlen; lia|].
  exists d, ds.
  assert (Hclean : List.filter (fun c => negb (phone_separator c))
                     (plus ++ d :: ds) = plus ++ d :: ds).
  { rewrite List.filter_app, (digits_not_separators (d :: ds)) by done.
    by destruct Hplus' as [->| ->]. }
  split.
  { rewrite List.filter_app, (filter_keeps_all is_digit (d :: ds)) by done.
    by destruct Hplus' as [->| ->]. }
  unfold validatePhone. rewrite Hclean.
  apply Forall_cons in Hdigs as [Hd Hds]. cbn [length] in Hlen.
  apply eq_true_iff_eq. rewrite test_lang, phoneRegex_lang. split.
  - intros (plus' & d' & ds' & Heq & Hplus'' & Hd' & _).
    destruct Hplus' as [->| ->], Hplus'' as [->| ->]; cbn in Heq.
    + injection Heq as <- _. class_arith.
    + injection Heq as -> _. by vm_compute in Hd.
    + injection Heq as <- _. by vm_compute in Hd'.
    + injection Heq as <- _. class_arith.
  - intros Hnot0. exists plus, d, ds. repeat split; try done; try lia.
    class_arith.
Qed.

Lemma PHONE_rule_vs_validatePhone_witness :
  test PHONE (js "+4915112345678") = true
  ∧ ∃ d ds, List.filter is_digit (js "+4915112345678") = d :: ds
            ∧ validatePhone (js "+4915112345678") = negb (d =? chr "0")%N.
Proof.
  split; [reflexivity|].
  exact (PHONE_rule_vs_validatePhone (js "+4915112345678") eq_refl).
Defined.

Example validatePhone_examples :
  validatePhone (js "(555) 123-4567") = true
  ∧ validatePhone (js "0555 123 4567") = false
  ∧ test PHONE (js "0555123456") = true
  ∧ validatePhone (js "12") = true ∧ test PHONE (js "12") = false.
Proof. done. Qed.

(** * Properties of the slices *)

Section replace_found_facts.
Context {X : Type} (key : X → N).

Lemma findIndex_Some (wanted : N) (l : list X) (i : nat) :
  findIndex key wanted l = Some i
  ↔ ∃ e, l !! i = Some e ∧ key e = wanted
         ∧ ∀ j y, l !! j = Some y → (j < i)%nat → key y ≠ wanted.
Proof.
  unfold findIndex. split.
  - destruct (list_find _ l) as [[i' e]|] eqn:Hfind; [|done].
    intros [= <-]. apply list_find_Some in Hfind. by exists e.
  - intros (e & He & Hid & Hfirst).
    by rewrite (proj2 (list_find_Some _ l i e)).
Qed.

(** The index found depends on the ids of the list alone. *)
Lemma findIndex_ids (wanted : N) (l l' : list X) :
  key <$> l = key <$> l' → findIndex key wanted l = findIndex key wanted l'.
Proof.
  revert l'. induction l as [|x l IH]; intros [|x' l'] Hids; try done.
  injection Hids as Hx Hl. unfold findIndex in *. cbn.
  rewrite <- Hx. case_decide; [done|].
  specialize (IH l' Hl). revert IH.
  destruct (list_find _ l) as [[? ?]|], (list_find _ l') as [[? ?]|];
    cbn; congruence.
Qed.

(** What a list holds, place by place, after [replace_found]: the updated
    record where the first record with its id was, the old entry
    everywhere else. *)
Lemma replace_found_lookup (u : X) (l : list X) (i : nat) :
  replace_found key u l !! i
  = if decide (findIndex key (key u) l = Some i) then Some u else l !! i.
Proof.
  unfold replace_found. destruct (findIndex key (key u) l) as [k|] eqn:Hk.
  - apply findIndex_Some in Hk as (e & He & _).
    rewrite list_lookup_insert. apply lookup_lt_Some in He.
    destruct (decide (k = i)) as [->|Hne].
    + by rewrite !decide_True.
    + rewrite !decide_False; [done | congruence | tauto].
  - by rewrite decide_False.
Qed.

Lemma replace_found_ids (u : X) (l : list X) :
  key <$> replace_found key u l = key <$> l.
Proof.
  unfold replace_found.
  destruct (findIndex key (key u) l) as [k|] eqn:Hk; [|done].
  apply findIndex_Some in Hk as (e & He & Hid & _).
  rewrite list_fmap_insert. apply list_insert_id.
  by rewrite list_lookup_fmap, He, <- Hid.
Qed.

Lemma replace_found_idempotent (u : X) (l : list X) :
  replace_found key u (replace_found key u l) = replace_found key u l.
Proof.
  apply list_eq. intros i.
  rewrite (replace_found_lookup u (replace_found key u l)).
  rewrite (findIndex_ids _ _ l) by apply replace_found_ids.
  case_decide as Hi; [|done]. by rewrite replace_found_lookup, decide_True.
Qed.

End replace_found_facts.

(** ** The expense slice *)

Module ExpenseSliceFacts.
Import ExpenseSlice.

Lemma update_cached_expenses (u : expense) (s : state) :
  expenses (update_cached u s) = replace_found id u <$> expenses s.
Proof.
  destruct s as [es [c|] ? ? ? ? ? ? ? ? ?]; unfold update_cached; cbn;
    [|done].
  by destruct (N.eqb (id c) (id u)).
Qed.

Lemma update_cached_current (u : expense) (s : state) :
  currentExpense (update_cached u s)
  = (fun c => if N.eqb (id c) (id u) then u else c) <$> currentExpense s.
Proof.
  destruct s as [es [c|] ? ? ? ? ? ? ? ? ?]; unfold update_cached; cbn;
    [|done].
  by destruct (N.eqb (id c) (id u)).
Qed.

Lemma brings_expenses (u : expense) (a : action) (s : state) :
  brings u a →
  expenses (reducer s a) = replace_found id u <$> expenses s
  ∧ currentExpense (reducer s a)
    = (fun c => if N.eqb (id c) (id u) then u else c) <$> currentExpense s.
Proof.
  intros [->|[->| ->]]; cbn [reducer].
  - by rewrite update_cached_expenses, update_cached_current.
  - change (expenses (set_error None ?x)) with (expenses x).
    change (currentExpense (set_error None ?x)) with (currentExpense x).
    by rewrite update_cached_expenses, update_cached_current.
  - by rewrite update_cached_expenses, update_cached_current.
Qed.

(** An updated expense (from updateExpenseInList, updateExpense.fulfilled
    or settleExpenseParticipation.fulfilled) takes the place of the first
    expense with its id in the list of every loaded group, and of the
    current expense when that has its id.  Every other place keeps its
    entry, a later duplicate of the id included; no list changes its
    length or its sequence of ids, and no group is loaded or dropped. *)
Theorem update_replaces_first (s : state) (u : expense) (a : action)
    (g : N) :
  brings u a →
  (∀ i, default [] (expenses (reducer s a) !! g) !! i
        = if decide (findIndex id (id u) (default [] (expenses s !! g)) = Some i)
          then Some u
          else default [] (expenses s !! g) !! i)
  ∧ id <$> default [] (expenses (reducer s a) !! g)
    = id <$> default [] (expenses s !! g)
  ∧ (is_Some (expenses (reducer s a) !! g) ↔ is_Some (expenses s !! g))
  ∧ currentExpense (reducer s a)
    = (fun c => if N.eqb (id c) (id u) then u else c) <$> currentExpense s.
Proof.
  intros Ha. destruct (brings_expenses u a s Ha) as [-> ->].
  rewrite lookup_fmap. destruct (expenses s !! g) as [l|]; cbn.
  - repeat split; try by eexists.
    + intros i. apply replace_found_lookup.
    + apply replace_found_ids.
  - repeat split; try done; by intros [? ?].
Qed.

(** Bringing the same updated expense twice is bringing it once. *)
Theorem update_idempotent (s : state) (u : expense) (a : action) :
  brings u a → reducer (reducer s a) a = reducer s a.
Proof.
  assert (Hidem : ∀ s, update_cached u (update_cached u s) = update_cached u s).
  { intros [es cur ? ? ? ? ? ? ? ? ?]. unfold update_cached. cbn.
    assert (Hes : replace_found id u <$> (replace_found id u <$> es) = replace_found id u <$> es).
    { rewrite <- map_fmap_compose. apply map_fmap_ext.
      intros ? l _. apply replace_found_idempotent. }
    destruct cur as [c|]; cbn; [|by rewrite Hes].
    destruct (N.eqb (id c) (id u)) eqn:Hc; cbn.
    - by rewrite N.eqb_refl, Hes.
    - by rewrite Hc, Hes. }
  intros [->|[->| ->]]; cbn [reducer]; [apply Hidem| |apply Hidem].
  destruct s as [es cur ? ? ? ? ? ? ? ? ?].
  specialize (Hidem
    {| expenses := es; currentExpense := cur; statistics := statistics0;
       reminderCandidates := reminderCandidates0; pagination := pagination0;
       isLoading := isLoading0; isCreating := isCreating0;
       isUpdating := false; isDeleting := isDeleting0;
       isSendingReminder := isSendingReminder0; error := None |}).
  revert Hidem. unfold update_cached. cbn.
  destruct cur as [c|]; cbn.
  - destruct (N.eqb (id c) (id u)) eqn:Hc; cbn.
    + rewrite N.eqb_refl. cbn. by intros [= ->].
    + rewrite Hc. cbn. by intros [= ->].
  - by intros [= ->].
Qed.

Lemma elem_of_filter_id (eid : N) (l : list expense) (e : expense) :
  e ∈ List.filter (fun e => negb (N.eqb (id e) eid)) l ↔ e ∈ l ∧ id e ≠ eid.
Proof.
  rewrite !list_elem_of_In, List.filter_In, negb_true_iff, N.eqb_neq. tauto.
Qed.

(** After deleteExpense.fulfilled the cache holds what it held before,
    less every expense with the deleted id: none is left in any group's
    list or as the current expense, and no other expense is lost. *)
Theorem delete_forgets_id (s : state) (eid : N) (e : expense) :
  cached (reducer s (deleteExpense_fulfilled eid)) e
  ↔ cached s e ∧ id e ≠ eid.
Proof.
  destruct s as [es cur ? ? ? ? ? ? ? ? ?]. unfold cached. cbn.
  assert (Hlists :
    (∃ g l, (List.filter (fun e => negb (N.eqb (id e) eid)) <$> es) !! g
            = Some l ∧ e ∈ l)
    ↔ (∃ g l, es !! g = Some l ∧ e ∈ l) ∧ id e ≠ eid).
  { split.
    - intros (g & l' & Hg & He). rewrite lookup_fmap in Hg.
      destruct (es !! g) as [l|] eqn:Hl; [|done]. injection Hg as <-.
      apply elem_of_filter_id in He as [He Hid]. split; [|done].
      by exists g, l.
    - intros [(g & l & Hg & He) Hid]. exists g. eexists.
      rewrite lookup_fmap, Hg. split; [done|]. by apply elem_of_filter_id. }
  destruct cur as [c|]; cbn.
  - destruct (N.eqb_spec (id c) eid) as [Hc|Hc]; cbn; rewrite Hlists; split.
    + intros [[H Hid]|Habs]; [|discriminate]. split; [by left | done].
    + intros [[H|Heq] Hid]; [by left|]. injection Heq as <-. done.
    + intros [[H Hid]|Heq]; [split; [by left | done]|].
      injection Heq as <-. split; [by right | done].
    + intros [[H|Heq] Hid]; [by left | by right].
  - rewrite Hlists. split.
    + intros [[H Hid]|Habs]; [|discriminate]. split; [by left | done].
    + intros [[H|Habs] Hid]; [by left | discriminate].
Qed.

Lemma delete_projections (s : state) (eid : N) :
  expenses (reducer s (deleteExpense_fulfilled eid))
  = List.filter (fun e => negb (N.eqb (id e) eid)) <$> expenses s
  ∧ currentExpense (reducer s (deleteExpense_fulfilled eid))
    = match currentExpense s with
      | Some c => if N.eqb (id c) eid then None else Some c
      | None => None
      end.
Proof.
  destruct s as [es [c|] ? ? ? ? ? ? ? ? ?]; cbn; [|done].
  by destruct (N.eqb (id c) eid).
Qed.

Lemma create_projections (s : state) (e : expense) :
  expenses (reducer s (createExpense_fulfilled e))
  = match expenses s !! group_id e with
    | Some l => <[group_id e := e :: l]> (expenses s)
    | None => expenses s
    end
  ∧ currentExpense (reducer s (createExpense_fulfilled e)) = currentExpense s.
Proof.
  destruct s as [es cur ? ? ? ? ? ? ? ? ?]. cbn. unfold unshift_cached. cbn.
  by destruct (es !! group_id e).
Qed.

(** Deleting a created expense undoes the creation: when no cached
    expense has the id of [e], createExpense.fulfilled followed by
    deleteExpense.fulfilled of that id leaves the cached lists and the
    current expense as they were, whether the group of [e] was loaded or
    not. *)
Theorem create_then_delete (s : state) (e : expense) :
  (∀ x, cached s x → id x ≠ id e) →
  expenses (reducer (reducer s (createExpense_fulfilled e))
              (deleteExpense_fulfilled (id e))) = expenses s
  ∧ currentExpense (reducer (reducer s (createExpense_fulfilled e))
                      (deleteExpense_fulfilled (id e))) = currentExpense s.
Proof.
  intros Hfresh.
  destruct (delete_projections (reducer s (createExpense_fulfilled e)) (id e))
    as [-> ->].
  destruct (create_projections s e) as [-> ->].
  unfold cached in Hfresh.
  assert (Hkeep : ∀ g l, expenses s !! g = Some l →
            List.filter (fun x => negb (N.eqb (id x) (id e))) l = l).
  { intros g l Hg. apply filter_keeps_all, Forall_forall. intros x Hx.
    apply negb_true_iff, N.eqb_neq, Hfresh. left. by exists g, l. }
  split.
  - apply map_eq. intros g. rewrite lookup_fmap.
    destruct (expenses s !! group_id e) as [l|] eqn:Hl.
    + destruct (decide (g = group_id e)) as [->|Hne].
      * rewrite lookup_insert_eq, Hl. cbn. rewrite N.eqb_refl. cbn.
        by rewrite (Hkeep _ _ Hl).
      * rewrite lookup_insert_ne by done.
        destruct (expenses s !! g) as [l'|] eqn:Hl'; [|done]. cbn.
        by rewrite (Hkeep _ _ Hl').
    + destruct (expenses s !! g) as [l'|] eqn:Hl'; [|done]. cbn.
      by rewrite (Hkeep _ _ Hl').
  - destruct (currentExpense s) as [c|] eqn:Hc; [|done].
    assert (Hne : id c ≠ id e) by (apply Hfresh; by right).
    by rewrite (proj2 (N.eqb_neq _ _) Hne).
Qed.

(** Only two actions change which groups are loaded:
    fetchGroupExpenses.fulfilled loads its group and clearGroupExpenses
    drops its group.  Creating, updating, deleting or settling an expense
    never loads a group: an expense created in a group that is not loaded
    is not cached at all. *)
Theorem loaded_groups (s : state) (a : action) :
  dom (expenses (reducer s a))
  = match a with
    | fetchGroupExpenses_fulfilled g _ _ => {[ g ]} ∪ dom (expenses s)
    | clearGroupExpenses g => dom (expenses s) ∖ {[ g ]}
    | _ => dom (expenses s)
    end.
Proof.
  assert (Hunshift : ∀ g e s,
            dom (expenses (unshift_cached g e s)) = dom (expenses s)).
  { intros g e [es ? ? ? ? ? ? ? ? ? ?]. unfold unshift_cached. cbn.
    destruct (es !! g) as [l|] eqn:Hl; [|done]. cbn.
    by apply dom_insert_lookup_L. }
  assert (Hupdate : ∀ u s,
            dom (expenses (update_cached u s)) = dom (expenses s)).
  { intros u s'. by rewrite update_cached_expenses, dom_fmap_L. }
  destruct a;
    try (rewrite (proj1 (delete_projections s _)); apply dom_fmap_L);
    cbn [reducer];
    unfold set_error, set_pagination, set_statistics, set_reminderCandidates;
    cbn [expenses]; rewrite ?Hupdate, ?Hunshift;
    unfold set_expenses, set_isLoading, set_isCreating, set_isUpdating,
      set_isDeleting, set_isSendingReminder, set_currentExpense;
    cbn [expenses];
    first [ done | apply dom_delete_L | apply dom_insert_L ].
Qed.

Lemma update_replaces_first_witness :
  brings lunch_settled (settleExpenseParticipation_fulfilled lunch_settled)
  ∧ default [] (expenses (reducer loaded
       (settleExpenseParticipation_fulfilled lunch_settled)) !! 7%N)
    = [lunch_settled; taxi]
  ∧ currentExpense (reducer loaded
       (settleExpenseParticipation_fulfilled lunch_settled))
    = Some lunch_settled.
Proof.
  assert (Ha : brings lunch_settled
                 (settleExpenseParticipation_fulfilled lunch_settled))
    by (right; right; reflexivity).
  split; [exact Ha|].
  pose proof (update_replaces_first loaded lunch_settled _ 7%N Ha)
    as (_ & _ & _ & Hcur).
  split; [reflexivity | exact Hcur].
Defined.

Lemma update_idempotent_witness :
  brings lunch_settled (updateExpense_fulfilled lunch_settled)
  ∧ reducer (reducer loaded (updateExpense_fulfilled lunch_settled))
      (updateExpense_fulfilled lunch_settled)
    = reducer loaded (updateExpense_fulfilled lunch_settled).
Proof.
  assert (Ha : brings lunch_settled (updateExpense_fulfilled lunch_settled))
    by (right; left; reflexivity).
  split; [exact Ha|].
  exact (update_idempotent loaded lunch_settled _ Ha).
Defined.

Lemma create_then_delete_witness :
  (∀ x, cached loaded x → id x ≠ id hotel)
  ∧ expenses (reducer (reducer loaded (createExpense_fulfilled hotel))
                (deleteExpense_fulfilled (id hotel))) = expenses loaded
  ∧ currentExpense (reducer (reducer loaded (createExpense_fulfilled hotel))
                      (deleteExpense_fulfilled (id hotel)))
    = currentExpense loaded.
Proof.
  assert (Hfresh : ∀ x, cached loaded x → id x ≠ id hotel).
  { intros x [(g & l & Hg & Hx)|Hcur].
    - cbn in Hg. apply lookup_insert_Some in Hg as [[_ <-]|[_ Hg]];
        [|by rewrite lookup_empty in Hg].
      apply elem_of_cons in Hx as [->|Hx]; [discriminate|].
      apply elem_of_cons in Hx as [->|Hx]; [discriminate|].
      by apply elem_of_nil in Hx.
    - injection Hcur as <-. discriminate. }
  split; [exact Hfresh|].
  exact (create_then_delete loaded hotel Hfresh).
Defined.

Example create_in_unloaded_group :
  expenses (reducer initialState (createExpense_fulfilled hotel)) = ∅.
Proof. reflexivity. Qed.

End ExpenseSliceFacts.

(** ** The group slice *)

Module GroupSliceFacts.
Import GroupSlice.

Lemma updateGroup_projections (now : N) (s : state) (g : group) :
  groups (reducer now s (updateGroup_fulfilled g))
  = replace_found id g (groups s)
  ∧ currentGroup (reducer now s (updateGroup_fulfilled g))
    = (fun c => if N.eqb (id c) (id g) then g else c) <$> currentGroup s.
Proof.
  destruct s as [gs [c|] ? ? ? ? ? ?]; cbn; unfold replace_current; cbn;
    [|done].
  by destruct (N.eqb (id c) (id g)).
Qed.

(** updateGroup.fulfilled keeps the list and the detail view in step: if
    the list entry under the current group's id was the current group
    before, it is so afterwards, whether the updated group is the current
    one or another. *)
Theorem updateGroup_keeps_coherent (now : N) (s : state) (g : group) :
  coherent s → coherent (reducer now s (updateGroup_fulfilled g)).
Proof.
  intros Hs c' i. destruct (updateGroup_projections now s g) as [-> ->].
  destruct (currentGroup s) as [c|] eqn:Hc; [|done]. cbn. intros [= <-].
  destruct (N.eqb_spec (id c) (id g)) as [Hsame|Hdiff].
  - rewrite (findIndex_ids _ _ _ (groups s)) by apply replace_found_ids.
    intros Hi. by rewrite replace_found_lookup, decide_True.
  - rewrite (findIndex_ids _ _ _ (groups s)) by apply replace_found_ids.
    intros Hi. specialize (Hs c i Hc Hi).
    rewrite replace_found_lookup, decide_False; [done|].
    intros Hg. apply findIndex_Some in Hg as (e & He & Hid & _).
    congruence.
Qed.

Lemma updateGroup_keeps_coherent_witness :
  coherent opened
  ∧ coherent (reducer 102 opened (updateGroup_fulfilled flat_renamed)).
Proof.
  assert (Hopened : coherent opened).
  { intros c i [= <-] Hi. vm_compute in Hi. by injection Hi as <-. }
  split; [exact Hopened|].
  exact (updateGroup_keeps_coherent 102 opened flat_renamed Hopened).
Defined.

(** The reducer updateGroupInList and the member actions do not keep them
    in step: each renews one of the two copies only. *)
Example one_sided_updates :
  ¬ coherent (reducer 102 opened (updateGroupInList flat_renamed))
  ∧ ¬ coherent (reducer 102 opened (addGroupMember_fulfilled flat_renamed)).
Proof.
  split; intros H; by specialize (H _ 0%nat eq_refl eq_refl).
Qed.

End GroupSliceFacts.

(** * Properties of the HTTP client *)

Module ApiFacts.
Import Api.

Lemma onRequest_keeps (w : world) (c : config) :
  url (onRequest w c) = url c ∧ _retry (onRequest w c) = _retry c.
Proof. unfold onRequest. by destruct (present (accessToken w)). Qed.

(** A request that carries the retry mark is sent once and its error is
    handed on, whatever the status. *)
Lemma api_marked (server : nat → config → reply)
    (refresh : option string → refresh_outcome)
    (fuel sent : nat) (c : config) (w : world) :
  _retry c = true →
  api server refresh fuel sent c w
  = (match server sent (onRequest w c) with
     | answered data => resolved data
     | failed status => rejected status
     end, w, S sent).
Proof.
  intros Hmarked. destruct (onRequest_keeps w c) as [_ Hretry].
  destruct fuel; cbn; destruct (server sent (onRequest w c)); try done;
    rewrite Hretry, Hmarked; by rewrite andb_false_r.
Qed.

(** A call of [api] never nests more than one call of [api]: one retry is
    all the response interceptor ever asks for, so the call settles, sends
    at most two requests, and sends one when it already carries the retry
    mark. *)
Theorem api_retries_once (server : nat → config → reply)
    (refresh : option string → refresh_outcome)
    (fuel sent : nat) (c : config) (w : world) :
  api server refresh (S fuel) sent c w = api server refresh 1 sent c w
  ∧ (api server refresh 1 sent c w).1.1 ≠ pending
  ∧ (S sent ≤ (api server refresh 1 sent c w).2 ≤ S (S sent))%nat
  ∧ (_retry c = true → (api server refresh 1 sent c w).2 = S sent).
Proof.
  assert (Hstep : ∀ fuel,
    api server refresh (S fuel) sent c w
    = match server sent (onRequest w c) with
      | answered data => (resolved data, w, S sent)
      | failed status =>
          if (match status with Some 401%N => true | _ => false end)
             && negb (_retry (onRequest w c))
          then
            if present (refreshToken w) then
              match refresh (refreshToken w) with
              | refresh_fulfilled access_token payload_user =>
                  let w' :=
                    after_refresh
                      (refresh_fulfilled access_token payload_user) w in
                  let retried :=
                    {| url := url (onRequest w c);
                       Authorization :=
                         Some ("Bearer " ++ access_token)%string;
                       _retry := true |} in
                  (match server (S sent) (onRequest w' retried) with
                   | answered data => resolved data
                   | failed status => rejected status
                   end, w', S (S sent))
              | o =>
                  (rejected status,
                   redirect "/login" (clearAuth (after_refresh o w)), S sent)
              end
            else (rejected status, redirect "/login" (clearAuth w), S sent)
          else (rejected status, w, S sent)
      end).
  { intros fuel'. cbn [api].
    destruct (server sent (onRequest w c)) as [data|status]; [done|].
    destruct (_ && _); [|done].
    destruct (present (refreshToken w)); [|done].
    destruct (refresh (refreshToken w)); try done.
    by rewrite api_marked. }
  split; [by rewrite !Hstep|]. rewrite (Hstep 0%nat).
  destruct (onRequest_keeps w c) as [_ Hretry]. rewrite Hretry.
  destruct (server sent (onRequest w c)) as [data|status];
    [cbn; repeat split; (done || lia)|].
  destruct (_retry c) eqn:Hc.
  - rewrite andb_false_r. cbn. repeat split; (done || lia).
  - rewrite andb_true_r.
    destruct (match status with Some 401%N => true | _ => false end);
      [|cbn; repeat split; (done || lia)].
    destruct (present (refreshToken w)); [|cbn; repeat split; (done || lia)].
    destruct (refresh (refreshToken w)); cbn;
      [destruct (server (S sent) _)| |]; cbn; repeat split; (done || lia).
Qed.

Lemma api_retries_once_witness :
  api strict_server refresh_ok 5 0 balance_request session
  = api strict_server refresh_ok 1 0 balance_request session
  ∧ (api strict_server refresh_ok 1 0 balance_request session).1.1
    = resolved "balances"
  ∧ (api strict_server refresh_ok 1 0 balance_request session).2 = 2%nat.
Proof.
  split; [|split; reflexivity].
  exact (proj1 (api_retries_once strict_server refresh_ok 4 0
                  balance_request session)).
Defined.

(** A first 401 that the refresh cannot cure logs the user out: when no
    refresh token is stored, or the refresh is refused or throws, the call
    is rejected with the 401 after one request, both tokens are gone from
    localStorage, the store holds no user, and the page is /login. *)
Theorem failed_refresh_logs_out (server : nat → config → reply)
    (refresh : option string → refresh_outcome)
    (fuel sent : nat) (c : config) (w : world) :
  server sent (onRequest w c) = failed (Some 401%N) →
  _retry c = false →
  (present (refreshToken w) = false
   ∨ ∀ t u, refresh (refreshToken w) ≠ refresh_fulfilled t u) →
  ∃ w', api server refresh fuel sent c w = (rejected (Some 401%N), w', S sent)
        ∧ accessToken w' = None ∧ refreshToken w' = None
        ∧ user w' = None ∧ isAuthenticated w' = false
        ∧ location w' = "/login"%string.
Proof.
  intros Hreply Hfirst Hrefresh.
  destruct (onRequest_keeps w c) as [_ Hretry].
  assert (Hunfold : api server refresh fuel sent c w
    = if present (refreshToken w) then
        match refresh (refreshToken w) with
        | refresh_fulfilled access_token payload_user =>
            match fuel with
            | O => (pending,
                    after_refresh
                      (refresh_fulfilled access_token payload_user) w,
                    S sent)
            | S fuel' =>
                api server refresh fuel' (S sent)
                  {| url := url (onRequest w c);
                     Authorization :=
                       Some ("Bearer " ++ access_token)%string;
                     _retry := true |}
                  (after_refresh
                     (refresh_fulfilled access_token payload_user) w)
            end
        | o =>
            (rejected (Some 401%N),
             redirect "/login" (clearAuth (after_refresh o w)), S sent)
        end
      else (rejected (Some 401%N), redirect "/login" (clearAuth w), S sent)).
  { destruct fuel; cbn [api]; rewrite Hreply, Hretry, Hfirst; cbn [andb negb];
      destruct (present (refreshToken w)); try done;
      by destruct (refresh (refreshToken w)). }
  rewrite Hunfold.
  destruct (present (refreshToken w)) eqn:Hpresent.
  - destruct Hrefresh as [?|Hrefresh]; [done|].
    destruct (refresh (refreshToken w)) as [t u| |] eqn:Ho.
    + by destruct (Hrefresh t u).
    + by eexists.
    + by eexists.
  - by eexists.
Qed.

Lemma failed_refresh_logs_out_witness :
  (closed_server 0 (onRequest session balance_request) = failed (Some 401%N)
   ∧ _retry balance_request = false
   ∧ (present (refreshToken session) = false
      ∨ ∀ t u, refresh_refused (refreshToken session)
               ≠ refresh_fulfilled t u))
  ∧ ∃ w', api closed_server refresh_refused 1 0 balance_request session
          = (rejected (Some 401%N), w', 1%nat)
          ∧ accessToken w' = None ∧ refreshToken w' = None
          ∧ user w' = None ∧ isAuthenticated w' = false
          ∧ location w' = "/login"%string.
Proof.
  assert (H3 : present (refreshToken session) = false
               ∨ ∀ t u, refresh_refused (refreshToken session)
                        ≠ refresh_fulfilled t u)
    by (right; intros t u; discriminate).
  split; [repeat split; (reflexivity || exact H3)|].
  exact (failed_refresh_logs_out closed_server refresh_refused 1 0
           balance_request session eq_refl eq_refl H3).
Defined.

(** After a refresh that succeeds the request goes out once more, marked
    and with the new access token, and whatever comes back is final: a
    second 401 is handed to the caller without another refresh and without
    logging the user out. *)
Theorem refreshed_request_is_final (server : nat → config → reply)
    (refresh : option string → refresh_outcome)
    (fuel sent : nat) (c : config) (w : world)
    (access_token : string) (payload_user : option string) :
  server sent (onRequest w c) = failed (Some 401%N) →
  _retry c = false →
  present (refreshToken w) = true →
  refresh (refreshToken w) = refresh_fulfilled access_token payload_user →
  api server refresh (S fuel) sent c w
  = (match server (S sent)
             {| url := url c;
                Authorization := Some ("Bearer " ++ access_token)%string;
                _retry := true |} with
     | answered data => resolved data
     | failed status => rejected status
     end,
     after_refresh (refresh_fulfilled access_token payload_user) w,
     S (S sent))
  ∧ isAuthenticated
      (after_refresh (refresh_fulfilled access_token payload_user) w) = true
  ∧ accessToken
      (after_refresh (refresh_fulfilled access_token payload_user) w)
    = Some access_token.
Proof.
  intros Hreply Hfirst Hpresent Hrefresh.
  destruct (onRequest_keeps w c) as [Hurl Hretry].
  split; [|done]. cbn [api].
  rewrite Hreply, Hretry, Hfirst, Hpresent, Hrefresh. cbn [andb negb].
  rewrite api_marked by done. rewrite Hurl. do 3 f_equal.
  unfold onRequest. cbn.
  destruct (String.eqb_spec access_token "") as [->|_]; cbn; [done|done].
Qed.

Lemma refreshed_request_is_final_witness :
  (closed_server 0 (onRequest session balance_request) = failed (Some 401%N)
   ∧ _retry balance_request = false
   ∧ present (refreshToken session) = true
   ∧ refresh_ok (refreshToken session)
     = refresh_fulfilled "fresh" (Some "ana"%string))
  ∧ (api closed_server refresh_ok 1 0 balance_request session).1.1
    = rejected (Some 401%N)
  ∧ isAuthenticated
      (api closed_server refresh_ok 1 0 balance_request session).1.2 = true.
Proof.
  split; [repeat split; reflexivity|].
  pose proof (refreshed_request_is_final closed_server refresh_ok 0 0
                balance_request session "fresh" (Some "ana"%string)
                eq_refl eq_refl eq_refl eq_refl) as [Hcall _].
  rewrite Hcall. split; reflexivity.
Defined.

End ApiFacts.
